(** * Tourism news feed agent: classification, scoring, deduplication and
      balanced selection

    A shallow embedding of [news_agent.py] and the properties its
    specification states about it.

    Modelling conventions.
    - Python [str] values are modelled as Rocq strings of 8-bit characters;
      the development covers ASCII text, on which [str.lower] maps [A-Z] to
      [a-z] and leaves every other character alone.
    - Python integers are [Z]; [len] results are [nat].
    - An article (a Python [dict] with a fixed set of keys) is a record; the
      in-place mutation done by the classifier and the scorer is modelled a
      second time over a store of objects where object identity matters.
    - [datetime.now()] is an explicit argument [now].
    - Calls into BeautifulSoup, [strftime] and [hashlib] are parameters of
      the normaliser; a raised exception is a result of its own.  A value
      of an entry that is not text carries what BeautifulSoup makes of
      it. *)

From Stdlib Require Import ZArith Ascii String.
From stdpp Require Import base gmap sets list strings sorting.

(** * The program *)

(** ** Text primitives *)

Module Str.

(** [c.lower()] on one ASCII character. *)
Definition lower_char (c : ascii) : ascii :=
  let n := N_of_ascii c in
  if ((65 <=? n) && (n <=? 90))%N then ascii_of_N (n + 32) else c.

(** [s.lower()] *)
Fixpoint lower (s : string) : string :=
  match s with
  | EmptyString => EmptyString
  | String c r => String (lower_char c) (lower r)
  end.

(** [s.startswith(p)] *)
Fixpoint startswith (p s : string) : bool :=
  match p, s with
  | EmptyString, _ => true
  | String _ _, EmptyString => false
  | String a p', String b s' => bool_decide (a = b) && startswith p' s'
  end.

(** [kw in s]: substring containment. *)
Fixpoint contains (kw s : string) : bool :=
  startswith kw s ||
  match s with
  | EmptyString => false
  | String _ r => contains kw r
  end.

(** [s[:n]] *)
Fixpoint take (n : nat) (s : string) : string :=
  match n, s with
  | S n', String c r => String c (take n' r)
  | _, _ => EmptyString
  end.

(** [s[n:]] *)
Fixpoint drop (n : nat) (s : string) : string :=
  match n, s with
  | S n', String _ r => drop n' r
  | _, _ => s
  end.

(** Keep the characters that satisfy [f], in order. *)
Fixpoint filter (f : ascii → bool) (s : string) : string :=
  match s with
  | EmptyString => EmptyString
  | String c r => if f c then String c (filter f r) else filter f r
  end.

(** The declarative reading of containment. *)
Definition substring (kw s : string) : Prop :=
  ∃ pre post, s = pre +:+ kw +:+ post.

End Str.

(** ** Naive date-times, after CPython's [datetime] module *)

Record datetime := {
  year : Z; month : Z; day : Z;
  hour : Z; minute : Z; second : Z; microsecond : Z
}.

Definition is_leap (y : Z) : bool :=
  ((y mod 4 =? 0) && (negb (y mod 100 =? 0) || (y mod 400 =? 0)))%Z.

Definition days_in_month (y m : Z) : Z :=
  if ((m =? 2) && is_leap y)%Z then 29%Z
  else nth (Z.to_nat m)
           [0; 31; 28; 31; 30; 31; 30; 31; 31; 30; 31; 30; 31]%Z 0%Z.

Definition days_before_year (y : Z) : Z :=
  let p := (y - 1)%Z in (p * 365 + p / 4 - p / 100 + p / 400)%Z.

Definition days_before_month (y m : Z) : Z :=
  (nth (Z.to_nat m) [0; 0; 31; 59; 90; 120; 151; 181; 212; 243; 273; 304; 334] 0
   + (if (2 <? m) && is_leap y then 1 else 0))%Z.

Definition ymd2ord (y m d : Z) : Z :=
  (days_before_year y + days_before_month y m + d)%Z.

(** Microseconds since the start of day 0 of the proleptic calendar. *)
Definition to_micros (t : datetime) : Z :=
  ((((ymd2ord (year t) (month t) (day t) * 24 + hour t) * 60 + minute t) * 60
    + second t) * 1000000 + microsecond t)%Z.

(** [(a - b).days]: a [timedelta] is normalised so that [days] is the floor
    of the difference divided by one day. *)
Definition delta_days (a b : datetime) : Z :=
  ((to_micros a - to_micros b) / 86400000000)%Z.

(** The range checks of the [datetime] constructor. *)
Definition valid_datetime (y m d hh mm ss : Z) : bool :=
  ((1 <=? y) && (y <=? 9999) && (1 <=? m) && (m <=? 12)
   && (1 <=? d) && (d <=? days_in_month y m)
   && (0 <=? hh) && (hh <=? 23) && (0 <=? mm) && (mm <=? 59)
   && (0 <=? ss) && (ss <=? 59))%Z.

(** The [datetime] constructor applied to the first six components of a
    tuple of integers: [None] when it raises (fewer than three components,
    or one out of range). *)
Definition datetime_of_tuple (parsed : list Z) : option datetime :=
  match take 6 parsed with
  | y :: m :: d :: rest =>
      let hh := default 0%Z (rest !! 0%nat) in
      let mm := default 0%Z (rest !! 1%nat) in
      let ss := default 0%Z (rest !! 2%nat) in
      if valid_datetime y m d hh mm ss
      then Some {| year := y; month := m; day := d;
                   hour := hh; minute := mm; second := ss; microsecond := 0 |}
      else None
  | _ => None
  end.

(** ** Configuration *)

Definition TOTAL_ARTICLES : Z := 9.
Definition SLOTS_ROMANIA : nat := 3.
Definition SLOTS_EUROPE : nat := 3.
Definition SLOTS_GLOBAL : nat := 3.
Definition MAX_AGE_DAYS : Z := 14.

Definition GEO_ROMANIA_KEYWORDS : list string := [
  "romania"; "romanian"; "bucharest"; "bucuresti";
  "transylvania"; "moldova"; "moldavia";
  "constanta"; "mamaia"; "brasov"; "sibiu"; "cluj";
  "timisoara"; "iasi"; "maramures"; "banat"; "dobrogea";
  "black sea coast"; "danube delta"; "tulcea"; "prahova";
  "bran"; "sinaia"; "poiana brasov"; "vama veche";
  "bucovina"; "painted monasteries"
].

Definition GEO_EUROPE_KEYWORDS : list string := [
  "europe"; "european"; "eu "; " eu,"; "eu's";
  "mediterranean"; "balkans"; "balkan";
  "spain"; "spanish"; "france"; "french"; "italy"; "italian";
  "greece"; "greek"; "portugal"; "portuguese";
  "germany"; "german"; "austria"; "austrian"; "switzerland"; "swiss";
  "croatia"; "croatian"; "slovenia"; "slovenia";
  "bulgaria"; "bulgarian"; "serbia"; "serbian"; "hungary"; "hungarian";
  "turkey"; "turkish"; "czech"; "prague"; "poland"; "polish";
  "netherlands"; "dutch"; "belgium"; "belgian";
  "uk "; "britain"; "british"; "london"; "scotland"; "ireland";
  "scandinavia"; "nordic"; "norway"; "sweden"; "denmark"; "finland";
  "barcelona"; "paris"; "rome"; "lisbon"; "berlin"; "vienna";
  "amsterdam"; "dubrovnik"; "santorini"; "alps";
  "schengen"; "eurozone"; "ryanair"; "easyjet"; "eurowings";
  "european commission"; "european parliament"; "eu tourism";
  "eu fund"; "erasmus"; "horizon europe"
].

Definition KEYWORDS_HIGH_VALUE : list string := [
  "destination marketing"; "dmo"; "destination management";
  "tourism strategy"; "tourism board"; "national tourism";
  "wine tourism"; "sustainable tourism"; "slow travel";
  "overtourism"; "tourist tax"; "tourism tax";
  "review management"; "tripadvisor"; "ota management";
  "travel tech"; "digital campaign"; "programmatic";
  "feeder market"; "source market";
  "hotel marketing"; "hospitality marketing";
  "mice tourism"; "conference tourism";
  "cultural tourism"; "heritage tourism"; "rural tourism";
  "ai tourism"; "artificial intelligence travel";
  "tourism investment"; "tourism infrastructure";
  "eco tourism"; "responsible tourism";
  "culinary tourism"; "food tourism"; "gastro tourism"
].

Definition KEYWORDS_MEDIUM_VALUE : list string := [
  "tourism"; "travel industry"; "hospitality";
  "hotel"; "resort"; "accommodation";
  "destination"; "visitor economy"; "inbound tourism";
  "outbound tourism"; "travel trend"; "booking";
  "airline"; "cruise"; "tour operator";
  "travel recovery"; "tourism growth"; "visitor numbers";
  "travel technology"; "digital transformation";
  "influencer"; "content marketing"; "social media travel"
].

(** The literal list in the clickbait loop of [score_article]. *)
Definition CLICKBAIT : list string :=
  ["you won't believe"; "shocking"; "amazing trick"; "top 10 hack"].

(** ** Articles *)

(** The [date_obj] entry of an article: the empty string, the ISO rendering
    of a naive date-time, or any other non-empty string (one on which
    [datetime.fromisoformat], or the subtraction from [now], raises). *)
Inductive DateField :=
  | NoDate
  | IsoDate (d : datetime)
  | BadDate.

Record Article := {
  id : string;
  title : string;
  summary : string;
  url : string;
  source : string;
  feed_geo : string;
  geo : string;
  date : string;
  date_obj : DateField;
  score : Z
}.

(** [article["geo"] = g] *)
Definition set_geo (g : string) (a : Article) : Article :=
  {| id := id a; title := title a; summary := summary a; url := url a;
     source := source a; feed_geo := feed_geo a; geo := g; date := date a;
     date_obj := date_obj a; score := score a |}.

(** [article["score"] = s] *)
Definition set_score (s : Z) (a : Article) : Article :=
  {| id := id a; title := title a; summary := summary a; url := url a;
     source := source a; feed_geo := feed_geo a; geo := geo a; date := date a;
     date_obj := date_obj a; score := s |}.

(** [(article["title"] + " " + article["summary"]).lower()] *)
Definition article_text (a : Article) : string :=
  Str.lower (title a +:+ " " +:+ summary a).

(** ** Geographic classifier *)

(** [sum(1 for kw in kws if kw in text)] *)
Definition keyword_hits (kws : list string) (text : string) : nat :=
  sum_list ((λ _, 1) <$> filter (λ kw, Str.contains kw text) kws).

Definition classify_geography (article : Article) : Article :=
  let text := article_text article in
  let romania_hits := keyword_hits GEO_ROMANIA_KEYWORDS text in
  if decide (1 ≤ romania_hits) then set_geo "romania" article
  else
    let europe_hits := keyword_hits GEO_EUROPE_KEYWORDS text in
    if decide (1 ≤ europe_hits) then set_geo "europe" article
    else if decide (feed_geo article = "romania") then set_geo "romania" article
    else if decide (feed_geo article = "europe") then set_geo "europe" article
    else set_geo "global" article.

(** ** Relevance scorer *)

(** One keyword loop of the scorer:
    [for kw in kws: if kw in text: score += delta]. *)
Definition add_matches (kws : list string) (text : string) (delta : Z)
    (score : Z) : Z :=
  foldl (λ score kw, if Str.contains kw text then (score + delta)%Z else score)
        score kws.

Definition score_article (now : datetime) (article : Article) : Article :=
  let score := 0%Z in
  let text := article_text article in
  let score := add_matches KEYWORDS_HIGH_VALUE text 4 score in
  let score := add_matches KEYWORDS_MEDIUM_VALUE text 1 score in
  let score :=
    match date_obj article with
    | NoDate => score
    | BadDate => score
    | IsoDate d =>
        let age := delta_days now d in
        if decide (age ≤ 1)%Z then (score + 6)%Z
        else if decide (age ≤ 3)%Z then (score + 4)%Z
        else if decide (age ≤ 7)%Z then (score + 2)%Z
        else score
    end in
  let score := add_matches CLICKBAIT text (-5) score in
  set_score (Z.max score 0) article.

(** ** Deduplicator *)

(** The characters kept by [re.sub(r"[^a-z0-9]", "", _)]. *)
Definition is_key_char (c : ascii) : bool :=
  let n := N_of_ascii c in
  (((97 <=? n) && (n <=? 122)) || ((48 <=? n) && (n <=? 57)))%N.

Definition dedup_key (a : Article) : string :=
  Str.take 50 (Str.filter is_key_char (Str.lower (title a))).

(** One iteration of the loop over the state [(seen, unique)]. *)
Definition dedup_step (st : gset string * list Article) (a : Article)
    : gset string * list Article :=
  let key := dedup_key a in
  if decide (key ∈ st.1) then st else ({[key]} ∪ st.1, st.2 ++ [a]).

Definition deduplicate (articles : list Article) : list Article :=
  (foldl dedup_step (∅, []) articles).2.

(** ** Balanced selector *)

(** [l.sort(key=lambda x: x["score"], reverse=True)]: a stable sort by
    descending score, written as an insertion sort.  Each element is
    inserted in front of the elements that followed it in the input, and
    moves past exactly those with a strictly larger score. *)
Fixpoint insert_desc (x : Article) (l : list Article) : list Article :=
  match l with
  | [] => [x]
  | y :: l' =>
      if decide (score x < score y)%Z then y :: insert_desc x l' else x :: l
  end.

Definition sort_by_score_desc (l : list Article) : list Article :=
  foldr insert_desc [] l.

(** [[a for a in l if a["geo"] == g]] *)
Definition by_geo (g : string) (l : list Article) : list Article :=
  filter (λ a, geo a = g) l.

(** A bucket: the articles of one geography, best score first. *)
Definition bucket (g : string) (articles : list Article) : list Article :=
  sort_by_score_desc (by_geo g articles).

(** [{a["id"] for a in picked}] *)
Definition used_ids (picked : list Article) : gset string :=
  list_to_set (id <$> picked).

Definition overflow_pool (articles picked : list Article) : list Article :=
  sort_by_score_desc (filter (λ a, id a ∉ used_ids picked) articles).

Definition overflow_ordered (articles picked : list Article) : list Article :=
  let pool := overflow_pool articles picked in
  by_geo "europe" pool ++ by_geo "global" pool ++ by_geo "romania" pool.

(** [TOTAL_ARTICLES - total_picked] after the first round of picks. *)
Definition remaining_needed (articles : list Article) : Z :=
  let picked_ro := take SLOTS_ROMANIA (bucket "romania" articles) in
  let picked_eu := take SLOTS_EUROPE (bucket "europe" articles) in
  let picked_gl := take SLOTS_GLOBAL (bucket "global" articles) in
  (TOTAL_ARTICLES
   - Z.of_nat (length picked_ro + length picked_eu + length picked_gl))%Z.

(** The articles taken from the overflow pool ([extra] in the source; the
    empty list when the overflow branch is not entered). *)
Definition extra (articles : list Article) : list Article :=
  let picked_ro := take SLOTS_ROMANIA (bucket "romania" articles) in
  let picked_eu := take SLOTS_EUROPE (bucket "europe" articles) in
  let picked_gl := take SLOTS_GLOBAL (bucket "global" articles) in
  if decide (0 < remaining_needed articles)%Z then
    take (Z.to_nat (remaining_needed articles))
         (overflow_ordered articles (picked_ro ++ picked_eu ++ picked_gl))
  else [].

(** The three selected lists [(picked_ro, picked_eu, picked_gl)] as they
    stand when the interleaving starts. *)
Definition picked (articles : list Article)
    : list Article * list Article * list Article :=
  let picked_ro := take SLOTS_ROMANIA (bucket "romania" articles) in
  let picked_eu := take SLOTS_EUROPE (bucket "europe" articles) in
  let picked_gl := take SLOTS_GLOBAL (bucket "global" articles) in
  let extra := extra articles in
  (picked_ro ++ by_geo "romania" extra,
   picked_eu ++ by_geo "europe" extra,
   picked_gl ++ by_geo "global" extra).

(** The body of [for i in range(max_len)]. *)
Definition interleave_step (picked_ro picked_eu picked_gl : list Article)
    (final : list Article) (i : nat) : list Article :=
  let final :=
    if decide (i < length picked_ro) then final ++ option_list (picked_ro !! i)
    else final in
  let final :=
    if decide (i < length picked_eu) then final ++ option_list (picked_eu !! i)
    else final in
  if decide (i < length picked_gl) then final ++ option_list (picked_gl !! i)
  else final.

Definition interleave (picked_ro picked_eu picked_gl : list Article)
    : list Article :=
  let max_len :=
    length picked_ro `max` (length picked_eu `max` length picked_gl) in
  foldl (interleave_step picked_ro picked_eu picked_gl) [] (seq 0 max_len).

Definition balanced_selection (articles : list Article) : list Article :=
  let '(picked_ro, picked_eu, picked_gl) := picked articles in
  take (Z.to_nat TOTAL_ARTICLES) (interleave picked_ro picked_eu picked_gl).

(** ** Entry normaliser *)

(** Code that may raise: the result, or the fact that an exception left the
    block. *)
Inductive exn (A : Type) :=
  | Ok (a : A)
  | Raise.
Arguments Ok {A} a.
Arguments Raise {A}.

Definition exn_bind {A B} (m : exn A) (k : A → exn B) : exn B :=
  match m with
  | Ok a => k a
  | Raise => Raise
  end.

Notation "x ←! m ; k" := (exn_bind m (λ x, k))
  (at level 20, m at level 100, k at level 200, right associativity,
   format "x  ←!  m ;  '/' k").

(** A value found in a feed entry: text, or an object of another type
    (bytes, [None], a number, a list, ...).  The text functions ([re.sub],
    [.encode]) raise on such an object; what the program observes of it is
    its truth value and what the HTML parser makes of it: [parsed] is the
    text BeautifulSoup extracts from it once [script], [style] and
    [iframe] elements are removed, as it does from bytes, and [None] when
    it raises. *)
Inductive pyval :=
  | PStr (s : string)
  | PObj (truthy : bool) (parsed : option string).

Definition truthy (v : pyval) : bool :=
  match v with
  | PStr s => negb (bool_decide (s = ""))
  | PObj b _ => b
  end.

(** A feed entry as handed over by the feed parser; [None] is a missing
    key or attribute.  The two date fields hold tuples of integers. *)
Module Entry.
Record t := {
  title : option pyval;
  link : option pyval;
  summary : option pyval;
  description : option pyval;
  published_parsed : option (list Z);
  updated_parsed : option (list Z)
}.
End Entry.

Module Feed.
Record config := { url : string; source : string; geo : string }.
End Feed.

(** What Python's [\s] and [str.strip] treat as white space in ASCII. *)
Definition is_space (c : ascii) : bool :=
  let n := N_of_ascii c in
  (((9 <=? n) && (n <=? 13)) || ((28 <=? n) && (n <=? 32)))%N.

Definition is_char (a c : ascii) : bool := bool_decide (a = c).

(** Whether a tag opened just before [s] is closed: [[^>]+>] matches a
    prefix of [s]. *)
Definition tag_closes (s : string) : bool :=
  match s with
  | EmptyString => false
  | String c r => negb (is_char ">" c) && Str.contains ">" r
  end.

(** [re.sub(r"<[^>]+>", "", s)], scanning left to right; [inside] holds
    while the characters of a matched tag are being dropped. *)
Fixpoint strip_tags (inside : bool) (s : string) : string :=
  match s with
  | EmptyString => EmptyString
  | String c r =>
      if inside then strip_tags (negb (is_char ">" c)) r
      else if is_char "<" c && tag_closes r then strip_tags true r
      else String c (strip_tags false r)
  end.

(** [re.sub(r"\s+", " ", s)]; [in_run] holds after a white-space
    character. *)
Fixpoint collapse_ws (in_run : bool) (s : string) : string :=
  match s with
  | EmptyString => EmptyString
  | String c r =>
      if is_space c then
        if in_run then collapse_ws true r else String " " (collapse_ws true r)
      else String c (collapse_ws false r)
  end.

Fixpoint lstrip (s : string) : string :=
  match s with
  | EmptyString => EmptyString
  | String c r => if is_space c then lstrip r else s
  end.

Fixpoint rstrip (s : string) : string :=
  match s with
  | EmptyString => EmptyString
  | String c r =>
      let r' := rstrip r in
      if is_space c && bool_decide (r' = "") then EmptyString else String c r'
  end.

(** [s.strip()] *)
Definition strip (s : string) : string := rstrip (lstrip s).

(** [re.sub(r"\[\.{3}\]$", "", s)] on a string that does not end in a
    line break: at most one match, the suffix ["[...]"]. *)
Definition drop_bracket_dots (s : string) : string :=
  let n := String.length s in
  if bool_decide (Str.drop (n - 5) s = "[...]") then Str.take (n - 5) s else s.

Definition clean_text_str (text : string) : string :=
  let text := strip_tags false text in
  let text := strip (collapse_ws false text) in
  strip (drop_bracket_dots text).

(** [clean_text]: [re.sub] raises on anything but text. *)
Definition clean_text (text : pyval) : exn string :=
  match text with
  | PStr s => Ok (clean_text_str s)
  | PObj _ _ => Raise
  end.

(** [s.rsplit(" ", 1)[0]]: the part before the last space, or all of [s]
    when it has none. *)
Fixpoint before_last_space (s : string) : option string :=
  match s with
  | EmptyString => None
  | String c r =>
      match before_last_space r with
      | Some p => Some (String c p)
      | None => if is_char " " c then Some EmptyString else None
      end
  end.

Definition rsplit1_head (s : string) : string :=
  default s (before_last_space s).

(** One round of the loop over the two date fields: the value of
    [date_obj] when the field is present, non-empty and accepted by the
    constructor. *)
Definition date_of_field (parsed : option (list Z)) : option datetime :=
  match parsed with
  | Some ((_ :: _) as t) => datetime_of_tuple t
  | _ => None
  end.

Definition resolve_date (entry : Entry.t) : option datetime :=
  match date_of_field (Entry.published_parsed entry) with
  | Some d => Some d
  | None => date_of_field (Entry.updated_parsed entry)
  end.

(** [entry.get(key, "")] *)
Definition entry_get (field : option pyval) : pyval :=
  default (PStr "") field.

(** [entry.get("summary", entry.get("description", ""))] *)
Definition summary_raw (entry : Entry.t) : pyval :=
  default (entry_get (Entry.description entry)) (Entry.summary entry).

(** The truncation of a long summary. *)
Definition truncate_summary (summary : string) : string :=
  if bool_decide (220 < String.length summary)
  then rsplit1_head (Str.take 217 summary) +:+ "..."
  else summary.

Section normaliser.

(** The text BeautifulSoup extracts from markup given as text, once
    [script], [style] and [iframe] elements are removed
    ([get_text(separator=" ")]); [None] when it raises. *)
Variable soup_text : string → option string.
(** [d.strftime("%B %d, %Y")] *)
Variable strftime : datetime → string.
(** [hashlib.md5(s.encode()).hexdigest()] *)
Variable md5_hex : string → string.

(** [BeautifulSoup(html, "html.parser")] followed by the removal of the
    three kinds of element and [get_text(separator=" ")]. *)
Definition soup_get_text (html : pyval) : option string :=
  match html with
  | PStr s => soup_text s
  | PObj _ parsed => parsed
  end.

Definition clean_html (html : pyval) : exn string :=
  match soup_get_text html with
  | Some text => Ok (strip (collapse_ws false text))
  | None => clean_text html
  end.

(** The [try] block of [parse_entry]. *)
Definition parse_entry_body (now : datetime) (entry : Entry.t)
    (feed_config : Feed.config) : exn (option Article) :=
  title ←! clean_text (entry_get (Entry.title entry));
  if bool_decide (title = "") || bool_decide (String.length title < 15)
  then Ok None
  else
    let url := entry_get (Entry.link entry) in
    if negb (truthy url) then Ok None
    else
      summary ←! clean_html (summary_raw entry);
      let summary := truncate_summary summary in
      let summary := if bool_decide (summary = "") then title else summary in
      let date_obj := resolve_date entry in
      let date_str := from_option strftime "" date_obj in
      if from_option (λ d, bool_decide (MAX_AGE_DAYS < delta_days now d)%Z)
                     false date_obj
      then Ok None
      else
        match url with
        | PObj _ _ => Raise
        | PStr url =>
            Ok (Some {| id := Str.take 12 (md5_hex url);
                        title := title;
                        summary := summary;
                        url := url;
                        source := Feed.source feed_config;
                        feed_geo := Feed.geo feed_config;
                        geo := "";
                        date := date_str;
                        date_obj := from_option IsoDate NoDate date_obj;
                        score := 0 |})
        end.

(** [except Exception: return None] *)
Definition parse_entry (now : datetime) (entry : Entry.t)
    (feed_config : Feed.config) : option Article :=
  match parse_entry_body now entry feed_config with
  | Ok r => r
  | Raise => None
  end.

End normaliser.

(** ** Feed retrieval *)

Definition FEEDS_ROMANIA : list Feed.config := [
  {| Feed.url := "https://www.romania-insider.com/feed";
     Feed.source := "Romania Insider"; Feed.geo := "romania" |};
  {| Feed.url := "https://www.romaniajournal.ro/feed/";
     Feed.source := "Romania Journal"; Feed.geo := "romania" |};
  {| Feed.url := "https://www.actmedia.eu/rss/rss.php";
     Feed.source := "ACTMedia Romania"; Feed.geo := "romania" |};
  {| Feed.url := "https://www.nineoclock.ro/feed/";
     Feed.source := "Nine O'Clock"; Feed.geo := "romania" |}
].

Definition FEEDS_EUROPE : list Feed.config := [
  {| Feed.url := "https://www.traveldailynews.com/feed/";
     Feed.source := "Travel Daily News"; Feed.geo := "europe" |};
  {| Feed.url := "https://www.eturbonews.com/feed/";
     Feed.source := "eTurboNews"; Feed.geo := "global" |};
  {| Feed.url := "https://www.hospitalitynet.org/rss/news.html";
     Feed.source := "Hospitality Net"; Feed.geo := "europe" |};
  {| Feed.url := "https://www.euronews.com/travel/feed";
     Feed.source := "Euronews Travel"; Feed.geo := "europe" |};
  {| Feed.url := "https://www.touristboard.net/feed/";
     Feed.source := "Tourist Board News"; Feed.geo := "europe" |};
  {| Feed.url := "https://etc-corporate.org/feed/";
     Feed.source := "European Travel Commission"; Feed.geo := "europe" |}
].

Definition FEEDS_GLOBAL : list Feed.config := [
  {| Feed.url := "https://skift.com/feed/";
     Feed.source := "Skift"; Feed.geo := "global" |};
  {| Feed.url := "https://www.phocuswire.com/rss";
     Feed.source := "PhocusWire"; Feed.geo := "global" |};
  {| Feed.url := "https://www.travelweekly.com/rss";
     Feed.source := "Travel Weekly"; Feed.geo := "global" |};
  {| Feed.url := "https://www.travelandtourworld.com/feed/";
     Feed.source := "Travel & Tour World"; Feed.geo := "global" |};
  {| Feed.url := "https://www.ttgmedia.com/rss";
     Feed.source := "TTG Media"; Feed.geo := "global" |};
  {| Feed.url := "https://www.travelmarketreport.com/rss";
     Feed.source := "Travel Market Report"; Feed.geo := "global" |};
  {| Feed.url := "https://www.breakingtravelnews.com/feed/";
     Feed.source := "Breaking Travel News"; Feed.geo := "global" |}
].

Definition ALL_FEEDS : list Feed.config :=
  FEEDS_ROMANIA ++ FEEDS_EUROPE ++ FEEDS_GLOBAL.

Section retrieval.

Variable soup_text : string → option string.
Variable strftime : datetime → string.
Variable md5_hex : string → string.

(** One round of the loop over [feed.entries[:25]]; [j] is the position of
    the entry and [now_at j] the reading of the clock while it is parsed. *)
Definition fetch_step (now_at : nat → datetime) (feed_config : Feed.config)
    (articles : list Article) (indexed : nat * Entry.t) : list Article :=
  match parse_entry soup_text strftime md5_hex (now_at indexed.1) indexed.2
                    feed_config with
  | Some article => articles ++ [article]
  | None => articles
  end.

(** [fetch_feed].  [response] stands for the request and the parse of its
    body: the entries of the feed, or [Raise] when either raises, in which
    case the warning is printed and the empty list returned. *)
Definition fetch_feed (now_at : nat → datetime) (feed_config : Feed.config)
    (response : exn (list Entry.t)) : list Article :=
  match response with
  | Raise => []
  | Ok entries =>
      foldl (fetch_step now_at feed_config) [] (imap pair (take 25 entries))
  end.

End retrieval.

(** ** Output formatter *)

(** A record of the published feed. *)
Module Item.
Record t := {
  title : string;
  summary : string;
  url : string;
  source : string;
  category : string;
  date : string
}.
End Item.

Definition geo_labels : gmap string string :=
  {[ "romania" := "Romania";
     "europe" := "European Tourism";
     "global" := "Global Travel" ]}.

(** The dictionary appended for one article;
    [geo_labels.get(a["geo"], "Travel News")] picks the category. *)
Definition format_article (a : Article) : Item.t :=
  {| Item.title := title a;
     Item.summary := summary a;
     Item.url := url a;
     Item.source := source a;
     Item.category := default "Travel News" (geo_labels !! geo a);
     Item.date := date a |}.

Definition format_output (articles : list Article) : list Item.t :=
  foldl (λ output a, output ++ [format_article a]) [] articles.

(** ** The run *)

Section run.

Variable soup_text : string → option string.
Variable strftime : datetime → string.
Variable md5_hex : string → string.

(** The clock is read while entries are parsed and while articles are
    scored: [clock_parse i j] is the reading for entry [j] of feed [i],
    [clock_score k] the reading for article [k].  [responses i] is what the
    request to feed [i] yields. *)
Variable clock_parse : nat → nat → datetime.
Variable clock_score : nat → datetime.
Variable responses : nat → exn (list Entry.t).

(** The loop over [ALL_FEEDS]: [all_articles.extend(fetch_feed(feed))]. *)
Definition collect_step (all_articles : list Article)
    (indexed : nat * Feed.config) : list Article :=
  all_articles
  ++ fetch_feed soup_text strftime md5_hex (clock_parse indexed.1) indexed.2
                (responses indexed.1).

Definition collect (feeds : list Feed.config) : list Article :=
  foldl collect_step [] (imap pair feeds).

(** The articles chosen for the feed: classified, scored, deduplicated and
    selected, in this order. *)
Definition select_for_feed (all_articles : list Article) : list Article :=
  let all_articles := classify_geography <$> all_articles in
  let all_articles :=
    imap (λ k a, score_article (clock_score k) a) all_articles in
  let all_articles := deduplicate all_articles in
  balanced_selection all_articles.

(** [generate_feed], up to the value it returns; printing is left out and
    writing the file follows below. *)
Definition generate_feed : list Item.t :=
  let all_articles := collect ALL_FEEDS in
  let selected := select_for_feed all_articles in
  format_output selected.

End run.

(** ** Writing the feed *)

Definition OUTPUT_FILE : string := "news_feed.json".
Definition BACKUP_FILE : string := "news_feed_backup.json".

(** The end of [generate_feed] over the files of the working directory, a
    map from names to contents: an existing output file is renamed to the
    backup name, a failure to do so being ignored ([rename_raises]), and the
    new content is written to the output file. *)
Definition write_feed (rename_raises : bool) (content : string)
    (files : gmap string string) : gmap string string :=
  let files :=
    match files !! OUTPUT_FILE with
    | Some previous =>
        if rename_raises then files
        else <[BACKUP_FILE := previous]> (delete OUTPUT_FILE files)
    | None => files
    end in
  <[OUTPUT_FILE := content]> files.

(** ** In-place mutation

    The classifier and the scorer write one key of the dictionary they are
    given and return that same dictionary.  Objects live in a store indexed
    by references. *)

Definition ref := nat.

Definition classify_geography_ref (r : ref) (σ : gmap ref Article)
    : ref * gmap ref Article :=
  (r, alter classify_geography r σ).

Definition score_article_ref (now : datetime) (r : ref) (σ : gmap ref Article)
    : ref * gmap ref Article :=
  (r, alter (score_article now) r σ).

(** * Notions used to state the properties *)

(** ** Scoring and deduplication *)

(** The number of keywords of [kws] that occur in [text]; a keyword counts
    once however often it occurs. *)
Definition matches (kws : list string) (text : string) : Z :=
  Z.of_nat (length (filter (λ kw, Str.contains kw text) kws)).

(** The variable [age] of the scorer, [(now - date).days]: the days
    elapsed since the timestamp, rounded down. *)
Definition article_age (now : datetime) (a : Article) : option Z :=
  match date_obj a with
  | IsoDate d => Some (delta_days now d)
  | NoDate | BadDate => None
  end.

(** The bonus the scorer adds for that value of [age]. *)
Definition recency_bonus (age : option Z) : Z :=
  match age with
  | None => 0
  | Some days =>
      if decide (days ≤ 1)%Z then 6
      else if decide (days ≤ 3)%Z then 4
      else if decide (days ≤ 7)%Z then 2
      else 0
  end.

(** One day, in microseconds. *)
Definition DAY : Z := 86400000000.

(** The time elapsed since the timestamp of an article, in microseconds;
    none without a timestamp that can be read. *)
Definition article_elapsed (now : datetime) (a : Article) : option Z :=
  match date_obj a with
  | IsoDate d => Some (to_micros now - to_micros d)%Z
  | NoDate | BadDate => None
  end.

(** The recency bonus by elapsed time: 6 under two days, 4 under four,
    2 under eight. *)
Definition elapsed_bonus (elapsed : option Z) : Z :=
  match elapsed with
  | None => 0
  | Some t =>
      if decide (t < 2 * DAY)%Z then 6
      else if decide (t < 4 * DAY)%Z then 4
      else if decide (t < 8 * DAY)%Z then 2
      else 0
  end.

(** The recency bonus in the words of the specification: 6 for an age of
    at most one day, 4 for at most three, 2 for at most seven. *)
Definition bonus_as_specified (elapsed : option Z) : Z :=
  match elapsed with
  | None => 0
  | Some t =>
      if decide (t ≤ 1 * DAY)%Z then 6
      else if decide (t ≤ 3 * DAY)%Z then 4
      else if decide (t ≤ 7 * DAY)%Z then 2
      else 0
  end.

(** An ASCII letter or digit. *)
Definition is_alnum (c : ascii) : bool :=
  let n := N_of_ascii c in
  (((65 <=? n) && (n <=? 90)) || ((97 <=? n) && (n <=? 122))
   || ((48 <=? n) && (n <=? 57)))%N.

(** What the deduplicator keeps of position [i] of [l]: the article there,
    unless its key is the key of an earlier position. *)
Definition kept_at (l : list Article) (i : nat) (a : Article) : list Article :=
  if decide (dedup_key a ∈ dedup_key <$> take i l) then [] else [a].

Definition first_occurrences (l : list Article) : list Article :=
  mjoin (imap (kept_at l) l).

(** The loop of the deduplicator as a recursion over the input. *)
Fixpoint dedup_from (seen : gset string) (l : list Article) : list Article :=
  match l with
  | [] => []
  | a :: l' =>
      if decide (dedup_key a ∈ seen) then dedup_from seen l'
      else a :: dedup_from ({[dedup_key a]} ∪ seen) l'
  end.

(** ** Selection *)

(** [a] may stand before [b] in a list sorted by descending score. *)
Definition score_ge (a b : Article) : Prop := (score b ≤ score a)%Z.

(** The three geography labels. *)
Definition GEOS : list string := ["romania"; "europe"; "global"].

(** The articles selected before the overflow step. *)
Definition first_picks (articles : list Article) : list Article :=
  take SLOTS_ROMANIA (bucket "romania" articles)
  ++ take SLOTS_EUROPE (bucket "europe" articles)
  ++ take SLOTS_GLOBAL (bucket "global" articles).

(** The articles of bucket [g] not yet selected after the first round:
    those whose id is not the id of a selected article. *)
Definition unselected (g : string) (articles : list Article) : list Article :=
  filter (λ a, id a ∉ used_ids (first_picks articles)) (bucket g articles).

(** Round-robin emission as the specification words it: for
    [i = 0, 1, 2, ...] the country article of index [i], then the region
    article of index [i], then the worldwide article of index [i], a list
    contributing nothing once it is exhausted. *)
Definition round_robin_row (ro eu gl : list Article) (i : nat)
    : list Article :=
  option_list (ro !! i) ++ option_list (eu !! i) ++ option_list (gl !! i).

Definition round_robin (ro eu gl : list Article) : list Article :=
  let n := length ro `max` (length eu `max` length gl) in
  seq 0 n ≫= round_robin_row ro eu gl.

(** ** Normalisation *)

(** The title is text that cleans to fewer than 15 characters (none at
    all included; a missing title counts as the empty text). *)
Definition title_too_short (entry : Entry.t) : Prop :=
  ∃ s, entry_get (Entry.title entry) = PStr s
       ∧ String.length (clean_text_str s) < 15.

(** The link is the empty text (or missing). *)
Definition link_empty (entry : Entry.t) : Prop :=
  entry_get (Entry.link entry) = PStr "".

(** A timestamp was resolved and at least fifteen days have elapsed
    since. *)
Definition too_old (now : datetime) (entry : Entry.t) : Prop :=
  ∃ d, resolve_date entry = Some d
       ∧ (15 * DAY ≤ to_micros now - to_micros d)%Z.

(** In the words of the specification: a timestamp was resolved and the
    age exceeds fourteen days. *)
Definition older_than_14_days (now : datetime) (entry : Entry.t) : Prop :=
  ∃ d, resolve_date entry = Some d
       ∧ (14 * DAY < to_micros now - to_micros d)%Z.

(** The entry cannot be read: its title or its link is not text, or its
    summary is an object that the HTML parser rejects as well. *)
Definition malformed (entry : Entry.t) : Prop :=
  (∃ b p, entry_get (Entry.title entry) = PObj b p)
  ∨ (∃ b p, entry_get (Entry.link entry) = PObj b p)
  ∨ (∃ b, summary_raw entry = PObj b None).

(** No space occurs in [w]. *)
Definition no_space (w : string) : Prop := Str.contains " " w = false.

(** The kept part [p] of the text [s] ends where a space follows. *)
Definition cut_at_space (s p : string) : Prop :=
  ∃ rest, s = p +:+ " " +:+ rest.

(** ** In-place mutation *)

(** [a'] has the entries of [a], [geo] possibly apart. *)
Definition agree_but_geo (a a' : Article) : Prop :=
  id a' = id a ∧ title a' = title a ∧ summary a' = summary a ∧
  url a' = url a ∧ source a' = source a ∧ feed_geo a' = feed_geo a ∧
  date a' = date a ∧ date_obj a' = date_obj a ∧ score a' = score a.

(** [a'] has the entries of [a], [score] possibly apart. *)
Definition agree_but_score (a a' : Article) : Prop :=
  id a' = id a ∧ title a' = title a ∧ summary a' = summary a ∧
  url a' = url a ∧ source a' = source a ∧ feed_geo a' = feed_geo a ∧
  date a' = date a ∧ date_obj a' = date_obj a ∧ geo a' = geo a.

(** [entry] with another value, or none, under the key [description]. *)
Definition with_description (d : option pyval) (entry : Entry.t) : Entry.t :=
  {| Entry.title := Entry.title entry; Entry.link := Entry.link entry;
     Entry.summary := Entry.summary entry; Entry.description := d;
     Entry.published_parsed := Entry.published_parsed entry;
     Entry.updated_parsed := Entry.updated_parsed entry |}.

(** [entry] with another value, or none, under the key [summary]. *)
Definition with_summary (s : option pyval) (entry : Entry.t) : Entry.t :=
  {| Entry.title := Entry.title entry; Entry.link := Entry.link entry;
     Entry.summary := s; Entry.description := Entry.description entry;
     Entry.published_parsed := Entry.published_parsed entry;
     Entry.updated_parsed := Entry.updated_parsed entry |}.

(** The key the deduplicator derives from a title. *)
Definition title_key (t : string) : string :=
  Str.take 50 (Str.filter is_key_char (Str.lower t)).

(** The three category labels of the published feed. *)
Definition CATEGORIES : list string :=
  ["Romania"; "European Tourism"; "Global Travel"].

(** A response that raised, read as a feed without entries. *)
Definition or_empty (response : exn (list Entry.t)) : exn (list Entry.t) :=
  match response with
  | Raise => Ok []
  | Ok entries => Ok entries
  end.

(** Text whose white space is normalised: it neither starts nor ends with
    a white-space character, its only white-space character is the space,
    and no two spaces are adjacent. *)
Definition normalised (s : string) : Prop :=
  (∀ c r, s = String c r → ¬ is_space c) ∧
  (∀ p c, s = p +:+ String c "" → ¬ is_space c) ∧
  (∀ p c r, s = p +:+ String c r → is_space c → c = " "%char) ∧
  (∀ p c d r, s = p +:+ String c (String d r) → ¬ (is_space c ∧ is_space d)).

(** The same as a scan: [spaced after_space s] holds when every
    white-space character of [s] is a space that does not follow another
    one, [after_space] telling whether a space precedes [s]. *)
Fixpoint spaced (after_space : bool) (s : string) : bool :=
  match s with
  | EmptyString => true
  | String c r =>
      if is_space c then is_char " " c && negb after_space && spaced true r
      else spaced false r
  end.

Fixpoint ends_in_space (s : string) : bool :=
  match s with
  | EmptyString => false
  | String c r => if bool_decide (r = "") then is_space c else ends_in_space r
  end.

Definition normalisedb (s : string) : bool :=
  spaced true s && negb (ends_in_space s).

(** * Worked inputs *)

(** An article with a given id, geography and score. *)
Definition mk_article (i g : string) (s : Z) : Article :=
  {| id := i; title := i; summary := ""; url := i; source := "";
     feed_geo := g; geo := g; date := ""; date_obj := NoDate; score := s |}.

(** The scenario of the specification: country scores 10, 8, 5, 2; region
    scores 9, 7; worldwide scores 20 down to 2.  The input is not sorted. *)
Definition scenario : list Article := [
  mk_article "w11" "global" 11; mk_article "c5" "romania" 5;
  mk_article "w20" "global" 20; mk_article "w2" "global" 2;
  mk_article "r7" "europe" 7; mk_article "w17" "global" 17;
  mk_article "c10" "romania" 10; mk_article "w3" "global" 3;
  mk_article "w19" "global" 19; mk_article "w4" "global" 4;
  mk_article "c2" "romania" 2; mk_article "w18" "global" 18;
  mk_article "w5" "global" 5; mk_article "w6" "global" 6;
  mk_article "r9" "europe" 9; mk_article "w7" "global" 7;
  mk_article "w8" "global" 8; mk_article "w9" "global" 9;
  mk_article "c8" "romania" 8; mk_article "w10" "global" 10;
  mk_article "w12" "global" 12; mk_article "w13" "global" 13;
  mk_article "w14" "global" 14; mk_article "w15" "global" 15;
  mk_article "w16" "global" 16
].

(** One country article, four region articles, four worldwide articles. *)
Definition one_four_four : list Article := [
  mk_article "c1" "romania" 5;
  mk_article "r1" "europe" 9; mk_article "r2" "europe" 8;
  mk_article "r3" "europe" 7; mk_article "r4" "europe" 6;
  mk_article "w1" "global" 4; mk_article "w2" "global" 3;
  mk_article "w3" "global" 2; mk_article "w4" "global" 1
].

(** Two articles, fewer than the nine asked for. *)
Definition two_articles : list Article :=
  [mk_article "a" "romania" 1; mk_article "b" "global" 5].

(** [s * n] *)
Fixpoint repeat_str (n : nat) (s : string) : string :=
  match n with
  | 0 => ""
  | S n' => s +:+ repeat_str n' s
  end.

(** Stand-ins for the library calls in worked inputs: on text without
    markup BeautifulSoup returns the text as it is; the date string and the
    hash play no part in what is shown. *)
Definition plain_soup (s : string) : option string := Some s.
Definition no_strftime (d : datetime) : string := "".
Definition no_md5 (s : string) : string := s.

Definition now0 : datetime :=
  {| year := 2024; month := 3; day := 20;
     hour := 12; minute := 0; second := 0; microsecond := 0 |}.

Definition feed0 : Feed.config :=
  {| Feed.url := "https://skift.com/feed/"; Feed.source := "Skift";
     Feed.geo := "global" |}.

(** An entry with a title, a link and a summary, no dates. *)
Definition text_entry (title link summary : string) : Entry.t :=
  {| Entry.title := Some (PStr title); Entry.link := Some (PStr link);
     Entry.summary := Some (PStr summary); Entry.description := None;
     Entry.published_parsed := None; Entry.updated_parsed := None |}.

(** A summary of 221 letters without a space. *)
Definition unbroken_entry : Entry.t :=
  text_entry "Hotels report record bookings" "https://example.org/a"
             (repeat_str 221 "a").

(** A title of 230 characters and an empty summary. *)
Definition long_title_entry : Entry.t :=
  text_entry (repeat_str 23 "0123456789") "https://example.org/b" "".

(** A summary of 249 characters made of four-letter words. *)
Definition wordy_entry : Entry.t :=
  text_entry "Hotels report record bookings" "https://example.org/c"
             (repeat_str 50 "word ").

(** An article from a feed, before classification and scoring. *)
Definition raw_article (title summary feed_geo : string) : Article :=
  {| id := "0123456789ab"; title := title; summary := summary;
     url := "https://example.org/"; source := "Example";
     feed_geo := feed_geo; geo := ""; date := ""; date_obj := NoDate;
     score := 0 |}.

Definition both_keywords : Article :=
  raw_article "European airlines add Bucharest routes"
              "New flights from Paris" "global".

Definition hinted_europe : Article :=
  raw_article "Airlines add new routes this summer"
              "More seats on offer" "europe".

Definition clickbait_only : Article :=
  raw_article "You won't believe this SHOCKING story" "" "global".

(** Two titles with one key; the later article has the higher score. *)
Definition dup_first : Article :=
  set_score 1 (raw_article "Hello, World: news today!" "" "global").
Definition dup_second : Article :=
  set_score 9 (raw_article "hello world NEWS TODAY" "" "europe").

(** An entry without dates and with a title long enough. *)
Definition undated_entry : Entry.t :=
  text_entry "Hotels report record bookings" "https://example.org/d"
             "Occupancy is up.".

(** The same entry published at the given time. *)
Definition dated_entry (parsed : list Z) : Entry.t :=
  {| Entry.title := Some (PStr "Hotels report record bookings");
     Entry.link := Some (PStr "https://example.org/e");
     Entry.summary := Some (PStr "Occupancy is up.");
     Entry.description := None;
     Entry.published_parsed := Some parsed;
     Entry.updated_parsed := None |}.

(** The same words, in capitals and in small letters. *)
Definition loud_article : Article :=
  raw_article "HOTEL Openings In BUCHAREST" "Sustainable TOURISM" "global".
Definition quiet_article : Article :=
  raw_article "hotel openings in bucharest" "sustainable tourism" "global".

(** An article stamped a day after [now0]. *)
Definition tomorrow : datetime :=
  {| year := 2024; month := 3; day := 21;
     hour := 12; minute := 0; second := 0; microsecond := 0 |}.
Definition future_article : Article :=
  {| id := "0123456789ab"; title := "Hotel openings"; summary := "";
     url := "https://example.org/"; source := "Example";
     feed_geo := "global"; geo := "global"; date := "March 21, 2024";
     date_obj := IsoDate tomorrow; score := 0 |}.

(** Two titles that share their first 52 letters and part ways after. *)
Definition long_headline : string :=
  "Tourism board of the Danube Delta region announces new plan to".
Definition same_start_a : Article :=
  raw_article (long_headline +:+ " expand ferries") "" "global".
Definition same_start_b : Article :=
  raw_article (long_headline +:+ " close two piers") "" "global".

(** An entry whose summary is present but empty, with a description. *)
Definition empty_summary_entry : Entry.t :=
  with_description (Some (PStr "Occupancy rose by a tenth."))
    (text_entry "Hotels report record bookings" "https://example.org/f" "").

(** An entry with both dates; the published one is the older. *)
Definition two_dates_entry : Entry.t :=
  {| Entry.title := Some (PStr "Hotels report record bookings");
     Entry.link := Some (PStr "https://example.org/g");
     Entry.summary := Some (PStr "Occupancy is up.");
     Entry.description := None;
     Entry.published_parsed := Some [2024; 3; 10; 8; 0; 0; 6; 70; 0]%Z;
     Entry.updated_parsed := Some [2024; 3; 19; 8; 0; 0; 1; 79; 0]%Z |}.

(** Thirty copies of an acceptable entry. *)
Definition thirty_entries : list Entry.t := replicate 30 undated_entry.

Definition clean_line : string := "Danube delta tours reopen in May".

(** An article without any keyword, stamped one day, 23 hours and 59
    minutes before [now0]. *)
Definition nearly_two_days : Article :=
  {| id := "0123456789ab"; title := "Weather notes for the weekend";
     summary := ""; url := "https://example.org/"; source := "Example";
     feed_geo := "global"; geo := "global"; date := "March 18, 2024";
     date_obj := IsoDate {| year := 2024; month := 3; day := 18;
                            hour := 12; minute := 1; second := 0;
                            microsecond := 0 |};
     score := 0 |}.

(** An entry published one second short of fifteen days before [now0]. *)
Definition nearly_fifteen_days : Entry.t :=
  dated_entry [2024; 3; 5; 12; 0; 1; 1; 65; 0]%Z.

(** An entry whose summary is bytes, which the HTML parser decodes. *)
Definition bytes_summary_entry : Entry.t :=
  with_summary (Some (PObj true (Some "Occupancy is up."))) undated_entry.

(** An entry whose summary is an object on which the HTML parser raises. *)
Definition unreadable_summary_entry : Entry.t :=
  with_summary (Some (PObj true None)) undated_entry.

Definition messy_line : string :=
  String.concat "" ["  <p>Danube   delta"; String "010" "tours</p> [...]"].

(** * Properties *)

(** ** Text primitives *)

Module StrFacts.

Lemma app_nil_l s : "" +:+ s = s.
Proof. reflexivity. Qed.

Lemma app_cons c s t : String c s +:+ t = String c (s +:+ t).
Proof. reflexivity. Qed.

Lemma app_nil_r s : s +:+ "" = s.
Proof. induction s as [|c s IH]; [done|]. by rewrite app_cons, IH. Qed.

Lemma app_assoc s t u : (s +:+ t) +:+ u = s +:+ t +:+ u.
Proof. induction s as [|c s IH]; [done|]. by rewrite !app_cons, IH. Qed.

Lemma length_app s t :
  String.length (s +:+ t) = String.length s + String.length t.
Proof. induction s as [|c s IH]; [done|]. rewrite app_cons. simpl. lia. Qed.

Lemma startswith_spec p s :
  Str.startswith p s ↔ ∃ post, s = p +:+ post.
Proof.
  revert s. induction p as [|a p IH]; intros s; simpl.
  - split; [eauto|done].
  - destruct s as [|b s].
    + split; [done|]. intros [post Hpost]. by rewrite app_cons in Hpost.
    + rewrite andb_True, bool_decide_spec, IH. split.
      * intros [-> [post ->]]. by exists post.
      * intros [post Hpost]. rewrite app_cons in Hpost.
        injection Hpost as -> ->. eauto.
Qed.

(** The scan [kw in s] finds exactly the strings that have [kw] as a
    contiguous part. *)
Lemma contains_spec kw s : Str.contains kw s ↔ Str.substring kw s.
Proof.
  unfold Str.substring. induction s as [|c s IH].
  - simpl. rewrite orb_True, startswith_spec. split.
    + intros [[post Hpost]|[]]. by exists "", post.
    + intros ([|? pre] & post & Hpre); [|done]. left. by exists post.
  - cbn [Str.contains]. rewrite orb_True, startswith_spec, IH. split.
    + intros [[post Hpost]|(pre & post & ->)].
      * by exists "", post.
      * by exists (String c pre), post.
    + intros ([|c' pre] & post & Hpre).
      * left. by exists post.
      * rewrite app_cons in Hpre. injection Hpre as -> ->. right. eauto.
Qed.

End StrFacts.

(** ** Geographic classifier *)

Lemma sum_list_ones {A} (l : list A) : sum_list ((λ _, 1) <$> l) = length l.
Proof. induction l as [|x l IH]; csimpl; [done|by rewrite IH]. Qed.

Lemma keyword_hits_length kws text :
  keyword_hits kws text = length (filter (λ kw, Str.contains kw text) kws).
Proof. apply sum_list_ones. Qed.

(** At least one hit means some keyword of the list occurs in the text. *)
Lemma keyword_hits_pos kws text :
  1 ≤ keyword_hits kws text ↔ ∃ kw, kw ∈ kws ∧ Str.substring kw text.
Proof.
  rewrite keyword_hits_length. split.
  - destruct (filter _ kws) as [|kw l] eqn:Hf; simpl; [lia|]. intros _.
    assert (kw ∈ filter (λ kw, Str.contains kw text) kws) as Hin
      by (rewrite Hf; left).
    apply list_elem_of_filter in Hin as [Hc Hin].
    exists kw. split; [done|]. by apply StrFacts.contains_spec.
  - intros (kw & Hin & Hsub%StrFacts.contains_spec).
    assert (kw ∈ filter (λ kw, Str.contains kw text) kws) as Hf
      by (by apply list_elem_of_filter).
    destruct (filter _ kws); [by apply elem_of_nil in Hf|simpl; lia].
Qed.

(** C4. The classifier sets [geo] by priority over the lower-cased
    [title + " " + summary]: romania when the text contains a keyword of the
    Romania list; otherwise europe when it contains a keyword of the Europe
    list; otherwise the feed hint when that is romania or europe; otherwise
    global.  So a text with both a Romania and a Europe keyword is romania,
    and an article with no keyword from a feed hinted europe is europe. *)
Theorem classify_geography_priority (a : Article) :
  let text := Str.lower (title a +:+ " " +:+ summary a) in
  let has kws := ∃ kw, kw ∈ kws ∧ Str.substring kw text in
  (has GEO_ROMANIA_KEYWORDS → geo (classify_geography a) = "romania") ∧
  (¬ has GEO_ROMANIA_KEYWORDS → has GEO_EUROPE_KEYWORDS →
     geo (classify_geography a) = "europe") ∧
  (¬ has GEO_ROMANIA_KEYWORDS → ¬ has GEO_EUROPE_KEYWORDS →
     (feed_geo a = "romania" → geo (classify_geography a) = "romania") ∧
     (feed_geo a = "europe" → geo (classify_geography a) = "europe") ∧
     (feed_geo a ≠ "romania" → feed_geo a ≠ "europe" →
        geo (classify_geography a) = "global")) ∧
  (has GEO_ROMANIA_KEYWORDS → has GEO_EUROPE_KEYWORDS →
     geo (classify_geography a) = "romania").
Proof.
  intros text has. unfold classify_geography. fold (article_text a).
  change (article_text a) with text.
  pose proof (keyword_hits_pos GEO_ROMANIA_KEYWORDS text) as Hro.
  pose proof (keyword_hits_pos GEO_EUROPE_KEYWORDS text) as Heu.
  fold (has GEO_ROMANIA_KEYWORDS) in Hro. fold (has GEO_EUROPE_KEYWORDS) in Heu.
  repeat case_decide; simpl; intuition congruence.
Qed.

(** ** Relevance scorer *)

Lemma add_matches_sum kws text delta score :
  add_matches kws text delta score = (score + delta * matches kws text)%Z.
Proof.
  unfold add_matches, matches. revert score.
  induction kws as [|kw kws IH]; intros score; simpl; [lia|].
  rewrite IH, filter_cons.
  destruct (Str.contains kw text); case_decide as Hkw; simpl in Hkw;
    try tauto; simpl length; lia.
Qed.

Lemma matches_nonneg kws text : (0 ≤ matches kws text)%Z.
Proof. unfold matches. lia. Qed.

(** The whole days elapsed are at most [k] exactly when less than [k + 1]
    days have elapsed. *)
Lemma delta_days_le now d k :
  (delta_days now d ≤ k ↔ to_micros now - to_micros d < (k + 1) * DAY)%Z.
Proof.
  unfold delta_days, DAY.
  generalize (to_micros now - to_micros d)%Z. intros t. split.
  - intros Hle. destruct (decide (t < (k + 1) * 86400000000)%Z); [done|].
    pose proof (Z.div_le_lower_bound t 86400000000 (k + 1)). lia.
  - intros Hlt.
    pose proof (Z.div_lt_upper_bound t 86400000000 (k + 1)). lia.
Qed.

Lemma delta_days_gt now d k :
  (k < delta_days now d ↔ (k + 1) * DAY ≤ to_micros now - to_micros d)%Z.
Proof. pose proof (delta_days_le now d k). lia. Qed.

(** More than [MAX_AGE_DAYS] whole days: fifteen days or more. *)
Lemma delta_days_max_age now d :
  (MAX_AGE_DAYS < delta_days now d ↔ 15 * DAY ≤ to_micros now - to_micros d)%Z.
Proof. exact (delta_days_gt now d 14). Qed.

(** The bonus the scorer adds, read off the elapsed time. *)
Lemma recency_bonus_elapsed now a :
  recency_bonus (article_age now a) = elapsed_bonus (article_elapsed now a).
Proof.
  unfold article_age, article_elapsed, recency_bonus, elapsed_bonus.
  destruct (date_obj a) as [|d|]; [done| |done].
  pose proof (delta_days_le now d 1). pose proof (delta_days_le now d 3).
  pose proof (delta_days_le now d 7).
  repeat case_decide; lia.
Qed.

(** C5. The score is [max 0] of: 4 per high-value keyword contained in the
    lower-cased title and summary, 1 per medium-value keyword contained,
    a recency bonus of 6 when less than two days have elapsed since the
    timestamp, 4 when less than four, 2 when less than eight and 0 from
    eight days on, counted only when a timestamp is present, minus 5 per
    clickbait phrase contained.  Keywords count by membership.  The score
    is never negative, and it is 0 when nothing but penalty phrases
    match. *)
Theorem score_article_formula (now : datetime) (a : Article) :
  let text := Str.lower (title a +:+ " " +:+ summary a) in
  let raw :=
    (4 * matches KEYWORDS_HIGH_VALUE text
     + 1 * matches KEYWORDS_MEDIUM_VALUE text
     + elapsed_bonus (article_elapsed now a)
     - 5 * matches CLICKBAIT text)%Z in
  score (score_article now a) = Z.max 0 raw ∧
  (0 ≤ score (score_article now a))%Z ∧
  (matches KEYWORDS_HIGH_VALUE text = 0%Z →
   matches KEYWORDS_MEDIUM_VALUE text = 0%Z →
   article_elapsed now a = None →
   score (score_article now a) = 0%Z).
Proof.
  intros text raw.
  assert (score (score_article now a) = Z.max 0 raw) as Hscore.
  { unfold score_article. fold (article_text a).
    change (article_text a) with text. unfold set_score. cbn [score].
    rewrite !add_matches_sum. unfold raw.
    rewrite <-recency_bonus_elapsed. unfold article_age, recency_bonus.
    destruct (date_obj a); repeat case_decide; lia. }
  split; [done|]. split; [lia|].
  intros Hhigh Hmed Hage. rewrite Hscore. unfold raw.
  rewrite Hhigh, Hmed, Hage. cbn [elapsed_bonus].
  pose proof (matches_nonneg CLICKBAIT text). lia.
Qed.

(** ** In-place mutation *)

(** C10. The classifier writes only [geo] and the scorer only [score]: each
    returns the reference it was given, the object behind it keeps all its
    other entries, and no other object of the store changes. *)
Theorem classify_score_frame (now : datetime) (r : ref)
    (σ : gmap ref Article) (a : Article) :
  σ !! r = Some a →
  classify_geography_ref r σ = (r, <[r := classify_geography a]> σ) ∧
  agree_but_geo a (classify_geography a) ∧
  score_article_ref now r σ = (r, <[r := score_article now a]> σ) ∧
  agree_but_score a (score_article now a).
Proof.
  intros Hr.
  assert (∀ f, alter f r σ = <[r := f a]> σ) as Halter.
  { intros f. apply map_eq. intros r'. rewrite lookup_alter, lookup_insert.
    case_decide; simplify_eq; by rewrite ?Hr. }
  split_and!.
  - unfold classify_geography_ref. by rewrite Halter.
  - unfold agree_but_geo, classify_geography. repeat case_decide; done.
  - unfold score_article_ref. by rewrite Halter.
  - done.
Qed.

(** ** Deduplicator *)

Lemma foldl_dedup_step seen unique l :
  (foldl dedup_step (seen, unique) l).2 = unique ++ dedup_from seen l.
Proof.
  revert seen unique. induction l as [|a l IH]; intros seen unique; simpl.
  - by rewrite app_nil_r.
  - unfold dedup_step at 2. simpl. case_decide.
    + apply IH.
    + rewrite IH. by rewrite <-app_assoc.
Qed.

Lemma deduplicate_dedup_from l : deduplicate l = dedup_from ∅ l.
Proof. unfold deduplicate. by rewrite foldl_dedup_step. Qed.

(** With [seen] holding the keys of the articles [pre] already visited, the
    loop keeps the positions whose key is new. *)
Lemma dedup_from_positions pre seen l :
  (∀ k, k ∈ seen ↔ k ∈ dedup_key <$> pre) →
  dedup_from seen l
  = mjoin (imap (λ i a, kept_at (pre ++ l) (length pre + i) a) l).
Proof.
  revert pre seen. induction l as [|a l IH]; intros pre seen Hseen; [done|].
  rewrite imap_cons. simpl mjoin. unfold kept_at at 1.
  rewrite Nat.add_0_r, take_app_length. simpl dedup_from.
  assert (imap ((λ i b, kept_at (pre ++ a :: l) (length pre + i) b) ∘ S) l
          = imap (λ i b, kept_at ((pre ++ [a]) ++ l)
                                 (length (pre ++ [a]) + i) b) l) as ->.
  { apply imap_ext. intros i b _. simpl.
    rewrite <-app_assoc, length_app. simpl. f_equal. lia. }
  destruct (decide (dedup_key a ∈ seen)) as [Hin|Hin].
  - rewrite decide_True by by apply Hseen. simpl. apply IH.
    intros k. rewrite fmap_app, elem_of_app, <-Hseen. simpl.
    rewrite list_elem_of_singleton. split; [by left|by intros [?| ->]].
  - rewrite decide_False by by rewrite <-Hseen. simpl. f_equal. apply IH.
    intros k. rewrite fmap_app, elem_of_app, <-Hseen. simpl.
    rewrite list_elem_of_singleton, elem_of_union, elem_of_singleton. tauto.
Qed.

(** Of the articles with key [k], the loop keeps the first one not yet
    seen, and nothing else. *)
Lemma dedup_from_key seen l k :
  filter (λ a, dedup_key a = k) (dedup_from seen l)
  = if decide (k ∈ seen) then []
    else option_list (head (filter (λ a, dedup_key a = k) l)).
Proof.
  revert seen. induction l as [|a l IH]; intros seen; simpl.
  - by case_decide.
  - rewrite (filter_cons _ a l).
    destruct (decide (dedup_key a ∈ seen)) as [Hin|Hin].
    + rewrite IH. destruct (decide (k ∈ seen)); [done|].
      rewrite decide_False; [done|]. by intros <-.
    + rewrite filter_cons, IH.
      destruct (decide (dedup_key a = k)) as [<-|Hne].
      * rewrite decide_True
          by (apply elem_of_union_l, elem_of_singleton_2; done).
        by rewrite decide_False by done.
      * destruct (decide (k ∈ seen)).
        -- by rewrite decide_True by by apply elem_of_union_r.
        -- rewrite decide_False; [done|].
           rewrite elem_of_union, elem_of_singleton. by intros [?|?].
Qed.

Lemma dedup_from_sublist seen l : dedup_from seen l `sublist_of` l.
Proof.
  revert seen. induction l as [|a l IH]; intros seen; simpl; [done|].
  case_decide; [by apply sublist_cons|by apply sublist_skip].
Qed.

(** After lower-casing, the characters outside [a-z0-9] are the
    non-alphanumeric ones. *)
Lemma filter_key_chars s :
  Str.filter is_key_char (Str.lower s) = Str.filter is_alnum (Str.lower s).
Proof.
  induction s as [|c s IH]; [done|]. cbn [Str.lower Str.filter]. rewrite IH.
  assert (is_key_char (Str.lower_char c) = is_alnum (Str.lower_char c)) as ->;
    [|done].
  by destruct c as [[] [] [] [] [] [] [] []].
Qed.

(** C6. The deduplicator keeps exactly the articles whose key (the
    lower-cased title without its non-alphanumeric characters, cut to 50
    characters) has not occurred at an earlier position, in input order; of
    the articles with one key it keeps the first and only that one; so of
    two articles A then B with the same key the output is A alone, whatever
    their scores. *)
Theorem deduplicate_first_wins :
  (∀ a, dedup_key a
        = Str.take 50 (Str.filter is_alnum (Str.lower (title a)))) ∧
  (∀ l, deduplicate l = first_occurrences l) ∧
  (∀ l, deduplicate l `sublist_of` l) ∧
  (∀ l k,
     filter (λ a, dedup_key a = k) (deduplicate l)
     = option_list (head (filter (λ a, dedup_key a = k) l))) ∧
  (∀ A B, dedup_key A = dedup_key B → deduplicate [A; B] = [A]).
Proof.
  split_and!.
  - intros a. unfold dedup_key. by rewrite filter_key_chars.
  - intros l. rewrite deduplicate_dedup_from.
    rewrite (dedup_from_positions [] ∅ l) by set_solver. done.
  - intros l. rewrite deduplicate_dedup_from. apply dedup_from_sublist.
  - intros l k. rewrite deduplicate_dedup_from, dedup_from_key.
    by rewrite decide_False by set_solver.
  - intros A B Hkey. rewrite deduplicate_dedup_from. simpl.
    rewrite decide_False by set_solver.
    by rewrite decide_True by set_solver.
Qed.

(** ** Sorting by descending score

    [sort_by_score_desc] returns a permutation of its input, sorted by
    descending score, in which articles of equal score keep their input
    order.  These three facts determine the result, so any stable sort
    (Python's included) computes the same list. *)

Lemma Forall_filter_sub {A} (P Q : A → Prop) `{!∀ a, Decision (P a)} l :
  Forall Q l → Forall Q (filter P l).
Proof.
  rewrite !Forall_forall. intros HQ a [_ Ha]%list_elem_of_filter. auto.
Qed.

Section sorting.
Implicit Types (x y : Article) (l : list Article).

Lemma insert_desc_perm x l : insert_desc x l ≡ₚ x :: l.
Proof.
  induction l as [|y l IH]; simpl; [done|]. case_decide; [|done].
  rewrite IH. apply Permutation_swap.
Qed.

Lemma sort_perm l : sort_by_score_desc l ≡ₚ l.
Proof.
  induction l as [|x l IH]; simpl; [done|].
  rewrite insert_desc_perm. by f_equiv.
Qed.

Lemma length_sort l : length (sort_by_score_desc l) = length l.
Proof. by rewrite sort_perm. Qed.

(** An element at least as good as all of [l] stays in front. *)
Lemma insert_desc_head x l :
  Forall (λ y, score y ≤ score x)%Z l → insert_desc x l = x :: l.
Proof.
  destruct l as [|y l]; [done|]. intros [Hy _]%Forall_cons. simpl.
  by rewrite decide_False by lia.
Qed.

Lemma insert_desc_sorted x l :
  StronglySorted score_ge l → StronglySorted score_ge (insert_desc x l).
Proof.
  induction 1 as [|y l Hl IH Hy]; simpl.
  - repeat constructor.
  - case_decide as Hxy.
    + constructor; [done|]. rewrite insert_desc_perm.
      constructor; [unfold score_ge; lia|done].
    + constructor; [by constructor|].
      constructor; [unfold score_ge; lia|].
      eapply Forall_impl; [exact Hy|]. unfold score_ge. intros; lia.
Qed.

Lemma sort_sorted l : StronglySorted score_ge (sort_by_score_desc l).
Proof.
  induction l as [|x l IH]; simpl; [constructor|].
  by apply insert_desc_sorted.
Qed.

(** Filtering commutes with insertion into a sorted list. *)
Lemma filter_insert_desc (P : Article → Prop) `{!∀ a, Decision (P a)} x l :
  StronglySorted score_ge l →
  filter P (insert_desc x l)
  = if decide (P x) then insert_desc x (filter P l) else filter P l.
Proof.
  induction 1 as [|y l Hl IH Hy]; cbn [insert_desc].
  - rewrite filter_cons, filter_nil. by case_decide.
  - destruct (decide (score x < score y)%Z) as [Hxy|Hxy].
    + rewrite !filter_cons, IH.
      destruct (decide (P y)), (decide (P x)); simpl; try done.
      by rewrite decide_True by done.
    + rewrite (filter_cons _ x). destruct (decide (P x)); [|done].
      symmetry. apply insert_desc_head, Forall_filter_sub.
      constructor; [lia|].
      eapply Forall_impl; [exact Hy|]. unfold score_ge. intros; lia.
Qed.

Lemma filter_sort (P : Article → Prop) `{!∀ a, Decision (P a)} l :
  filter P (sort_by_score_desc l) = sort_by_score_desc (filter P l).
Proof.
  induction l as [|x l IH]; simpl; [done|].
  rewrite filter_insert_desc by apply sort_sorted.
  rewrite filter_cons. case_decide; simpl; by rewrite IH.
Qed.

Lemma sort_same_score l s :
  Forall (λ a, score a = s) l → sort_by_score_desc l = l.
Proof.
  induction 1 as [|x l Hx Hl IH]; simpl; [done|]. rewrite IH.
  apply insert_desc_head. eapply Forall_impl; [exact Hl|].
  simpl. intros; lia.
Qed.

(** Stability: articles of equal score keep their relative order. *)
Lemma sort_stable l s :
  filter (λ a, score a = s) (sort_by_score_desc l)
  = filter (λ a, score a = s) l.
Proof.
  rewrite filter_sort. apply (sort_same_score _ s).
  apply Forall_forall. intros a Ha. by apply list_elem_of_filter in Ha as [? _].
Qed.

End sorting.

(** ** Interleaving *)

Section interleaving.
Implicit Types (ro eu gl final : list Article).

Lemma guarded_lookup (l final : list Article) i :
  (if decide (i < length l) then final ++ option_list (l !! i) else final)
  = final ++ option_list (l !! i).
Proof.
  case_decide; [done|].
  rewrite lookup_ge_None_2 by lia. simpl. by rewrite app_nil_r.
Qed.

Lemma interleave_step_row ro eu gl final i :
  interleave_step ro eu gl final i = final ++ round_robin_row ro eu gl i.
Proof.
  unfold interleave_step, round_robin_row. rewrite !guarded_lookup.
  by rewrite <-!app_assoc.
Qed.

Lemma foldl_interleave_step ro eu gl final (l : list nat) :
  foldl (interleave_step ro eu gl) final l
  = final ++ (l ≫= round_robin_row ro eu gl).
Proof.
  revert final. induction l as [|i l IH]; intros final; simpl.
  - by rewrite app_nil_r.
  - rewrite IH, interleave_step_row. by rewrite <-app_assoc.
Qed.

(** The index loop of the source emits the round robin of the
    specification. *)
Lemma interleave_is_round_robin ro eu gl :
  interleave ro eu gl = round_robin ro eu gl.
Proof. unfold interleave. by rewrite foldl_interleave_step. Qed.

Lemma bind_lookup_take (l : list Article) n :
  (seq 0 n ≫= λ i, option_list (l !! i)) = take n l.
Proof.
  induction n as [|n IH]; [done|].
  rewrite seq_S, bind_app, IH. simpl. rewrite app_nil_r.
  destruct (l !! n) as [x|] eqn:Hn; simpl.
  - by rewrite (take_S_r _ _ x).
  - apply lookup_ge_None_1 in Hn.
    by rewrite app_nil_r, !take_ge by lia.
Qed.

Lemma bind_app_perm (f g : nat → list Article) (l : list nat) :
  (l ≫= λ i, f i ++ g i) ≡ₚ (l ≫= f) ++ (l ≫= g).
Proof.
  induction l as [|i l IH]; [done|]. rewrite !bind_cons, IH.
  rewrite <-!app_assoc. f_equiv. rewrite !app_assoc. f_equiv.
  apply Permutation_app_comm.
Qed.

(** Every selected article is emitted exactly once. *)
Lemma round_robin_perm ro eu gl : round_robin ro eu gl ≡ₚ ro ++ eu ++ gl.
Proof.
  unfold round_robin, round_robin_row.
  rewrite !bind_app_perm, !bind_lookup_take.
  by rewrite !take_ge by lia.
Qed.

(** One round: the heads of the three lists, as far as they have one,
    then the round robin of the tails. *)
Lemma round_robin_step ro eu gl :
  ro ++ eu ++ gl ≠ [] →
  round_robin ro eu gl
  = option_list (head ro) ++ option_list (head eu) ++ option_list (head gl)
    ++ round_robin (tail ro) (tail eu) (tail gl).
Proof.
  intros Hne. unfold round_robin.
  assert (length ro `max` (length eu `max` length gl)
          = S (length (tail ro)
               `max` (length (tail eu) `max` length (tail gl)))) as ->.
  { destruct ro, eu, gl; simpl in *; try done; lia. }
  cbn [seq]. rewrite bind_cons, <-fmap_S_seq, list_fmap_bind.
  unfold round_robin_row at 1. rewrite <-!head_lookup, <-!app_assoc.
  do 3 f_equal. apply list_bind_ext; [|done].
  intros i. unfold round_robin_row. simpl. by rewrite !lookup_tail.
Qed.

Lemma length_interleave ro eu gl :
  length (interleave ro eu gl) = length ro + length eu + length gl.
Proof.
  rewrite interleave_is_round_robin, round_robin_perm, !length_app. lia.
Qed.

End interleaving.

(** ** Buckets and the overflow pool *)

Section selection.
Implicit Types (a b : Article) (l articles : list Article) (g : string).

Lemma filter_none (P : Article → Prop) `{!∀ a, Decision (P a)} l :
  Forall (λ a, ¬ P a) l → filter P l = [].
Proof.
  induction 1 as [|a l Ha Hl IH]; [done|].
  by rewrite filter_cons_False.
Qed.

Lemma filter_all (P : Article → Prop) `{!∀ a, Decision (P a)} l :
  Forall P l → filter P l = l.
Proof.
  induction 1 as [|a l Ha Hl IH]; [done|].
  rewrite filter_cons_True by done. by rewrite IH.
Qed.

Lemma filter_comm (P Q : Article → Prop)
    `{!∀ a, Decision (P a), !∀ a, Decision (Q a)} l :
  filter P (filter Q l) = filter Q (filter P l).
Proof.
  induction l as [|a l IH]; [done|]. rewrite !(filter_cons _ a l).
  destruct (decide (P a)), (decide (Q a));
    rewrite ?filter_cons_True, ?filter_cons_False by done; by rewrite IH.
Qed.

Lemma elem_of_by_geo g l a : a ∈ by_geo g l ↔ geo a = g ∧ a ∈ l.
Proof. unfold by_geo. by rewrite list_elem_of_filter. Qed.

Lemma elem_of_bucket g articles a :
  a ∈ bucket g articles ↔ geo a = g ∧ a ∈ articles.
Proof. unfold bucket. by rewrite sort_perm, elem_of_by_geo. Qed.

Lemma length_bucket g articles :
  length (bucket g articles) = length (by_geo g articles).
Proof. apply length_sort. Qed.

(** Articles with one of the three labels split into the three buckets. *)
Lemma by_geo_partition l :
  Forall (λ a, geo a ∈ GEOS) l →
  l ≡ₚ by_geo "romania" l ++ by_geo "europe" l ++ by_geo "global" l.
Proof.
  induction 1 as [|a l Ha Hl IH]; [done|]. unfold by_geo in *.
  rewrite !(filter_cons _ a l). unfold GEOS in Ha.
  rewrite !elem_of_cons in Ha.
  destruct Ha as [Ha|[Ha|[Ha|Ha]]]; [..|by apply elem_of_nil in Ha];
    rewrite Ha; repeat case_decide; try done.
  - rewrite <-app_comm_cons. by f_equiv.
  - rewrite <-app_comm_cons, <-Permutation_middle. by f_equiv.
  - rewrite app_assoc, <-Permutation_middle, <-app_assoc. by f_equiv.
Qed.

(** With pairwise distinct ids, an id names one article. *)
Lemma id_inj_on l a b :
  NoDup (id <$> l) → a ∈ l → b ∈ l → id a = id b → a = b.
Proof.
  induction l as [|c l IH]; intros Hnd Ha Hb Hid.
  { by apply elem_of_nil in Ha. }
  rewrite fmap_cons in Hnd. apply NoDup_cons in Hnd as [Hc Hnd].
  apply elem_of_cons in Ha as [->|Ha]; apply elem_of_cons in Hb as [->|Hb];
    [done| | |by apply IH].
  - exfalso. apply Hc. rewrite Hid. by apply list_elem_of_fmap_2.
  - exfalso. apply Hc. rewrite <-Hid. by apply list_elem_of_fmap_2.
Qed.

Lemma elem_of_first_picks articles a :
  a ∈ first_picks articles →
  ∃ g, g ∈ GEOS ∧ a ∈ take 3 (bucket g articles).
Proof.
  unfold first_picks, GEOS. rewrite !elem_of_app.
  intros [?|[?|?]]; [exists "romania"|exists "europe"|exists "global"];
    (split; [set_solver|done]).
Qed.

Lemma first_picks_elem_of articles g a :
  g ∈ GEOS → a ∈ take 3 (bucket g articles) →
  a ∈ first_picks articles.
Proof.
  unfold first_picks, GEOS. rewrite !elem_of_cons, !elem_of_app.
  intros [->|[->|[->|Hg]]]; [tauto..|by apply elem_of_nil in Hg].
Qed.

Lemma NoDup_bucket g articles :
  NoDup (id <$> articles) → NoDup (bucket g articles).
Proof.
  intros Hnd%NoDup_fmap_1. unfold bucket. rewrite sort_perm.
  by apply NoDup_filter.
Qed.

(** The overflow pool holds of each geography the unselected articles of
    its bucket, in bucket order. *)
Lemma overflow_by_geo_unselected articles g :
  by_geo g (overflow_pool articles (first_picks articles))
  = unselected g articles.
Proof.
  unfold overflow_pool, by_geo, unselected, bucket.
  by rewrite filter_sort, filter_comm, <-filter_sort.
Qed.

Lemma sorted_filter (P : Article → Prop) `{!∀ a, Decision (P a)} l :
  StronglySorted score_ge l → StronglySorted score_ge (filter P l).
Proof.
  induction 1 as [|a l Hl IH Ha]; [constructor|].
  rewrite filter_cons. case_decide; [|done].
  constructor; [done|]. by apply Forall_filter_sub.
Qed.

Lemma sorted_unselected g articles :
  StronglySorted score_ge (unselected g articles).
Proof. apply sorted_filter, sort_sorted. Qed.

(** With pairwise distinct ids the unselected articles of a bucket are
    those after its third. *)
Lemma unselected_drop articles g :
  NoDup (id <$> articles) → g ∈ GEOS →
  unselected g articles = drop 3 (bucket g articles).
Proof.
  intros Hnd Hg. unfold unselected.
  pose proof (NoDup_bucket g articles Hnd) as Hb.
  rewrite <-(take_drop 3 (bucket g articles)) in Hb |- * at 1.
  apply NoDup_app in Hb as (_ & Hdisj & _).
  rewrite filter_app, filter_none, filter_all; [done| |].
  - apply Forall_forall. intros a Ha. unfold used_ids.
    rewrite elem_of_list_to_set, list_elem_of_fmap.
    intros (p & Hid & Hp).
    apply elem_of_first_picks in Hp as (g' & Hg' & Hp).
    pose proof (subseteq_take _ _ _ Hp) as Hp'.
    pose proof (subseteq_drop _ _ _ Ha) as Ha'.
    apply elem_of_bucket in Hp' as [Hgp Hp'].
    apply elem_of_bucket in Ha' as [Hga Ha'].
    assert (a = p) as -> by eauto using id_inj_on.
    assert (g' = g) as -> by congruence.
    by apply (Hdisj p).
  - apply Forall_forall. intros a Ha Hnot. apply Hnot. unfold used_ids.
    rewrite elem_of_list_to_set. apply list_elem_of_fmap_2.
    by apply (first_picks_elem_of _ g).
Qed.

Lemma extra_unfold articles :
  extra articles
  = if decide (0 < remaining_needed articles)%Z
    then take (Z.to_nat (remaining_needed articles))
              (overflow_ordered articles (first_picks articles))
    else [].
Proof. reflexivity. Qed.

Lemma picked_unfold articles :
  picked articles
  = (take 3 (bucket "romania" articles) ++ by_geo "romania" (extra articles),
     take 3 (bucket "europe" articles) ++ by_geo "europe" (extra articles),
     take 3 (bucket "global" articles) ++ by_geo "global" (extra articles)).
Proof. reflexivity. Qed.

Lemma remaining_needed_eq articles :
  remaining_needed articles
  = (9 - Z.of_nat (length (first_picks articles)))%Z.
Proof.
  unfold remaining_needed, first_picks, TOTAL_ARTICLES.
  rewrite !length_app. lia.
Qed.

Lemma length_first_picks articles :
  length (first_picks articles)
  = 3 `min` length (bucket "romania" articles)
    + 3 `min` length (bucket "europe" articles)
    + 3 `min` length (bucket "global" articles).
Proof.
  unfold first_picks, SLOTS_ROMANIA, SLOTS_EUROPE, SLOTS_GLOBAL.
  rewrite !length_app, !length_take. lia.
Qed.

(** The overflow pool in priority order: the unselected articles of the
    europe bucket, then of the global bucket, then of the romania bucket. *)
Lemma overflow_ordered_unselected articles :
  overflow_ordered articles (first_picks articles)
  = unselected "europe" articles ++ unselected "global" articles
    ++ unselected "romania" articles.
Proof. unfold overflow_ordered. by rewrite !overflow_by_geo_unselected. Qed.

Lemma geos_romania : "romania" ∈ GEOS.
Proof. unfold GEOS. apply elem_of_cons. by left. Qed.

Lemma geos_europe : "europe" ∈ GEOS.
Proof. unfold GEOS. rewrite !elem_of_cons. tauto. Qed.

Lemma geos_global : "global" ∈ GEOS.
Proof. unfold GEOS. rewrite !elem_of_cons. tauto. Qed.

Lemma overflow_ordered_eq articles :
  NoDup (id <$> articles) →
  overflow_ordered articles (first_picks articles)
  = drop 3 (bucket "europe" articles)
    ++ drop 3 (bucket "global" articles)
    ++ drop 3 (bucket "romania" articles).
Proof.
  intros Hnd. rewrite overflow_ordered_unselected.
  by rewrite !unselected_drop
    by auto using geos_romania, geos_europe, geos_global.
Qed.

Lemma overflow_ordered_geo articles picks a :
  a ∈ overflow_ordered articles picks → geo a ∈ GEOS.
Proof.
  unfold overflow_ordered, GEOS. rewrite !elem_of_app, !elem_of_by_geo.
  intros [[-> _]|[[-> _]|[-> _]]]; set_solver.
Qed.

Lemma extra_geo articles : Forall (λ a, geo a ∈ GEOS) (extra articles).
Proof.
  apply Forall_forall. intros a. rewrite extra_unfold.
  case_decide; [|by intros ?%elem_of_nil].
  intros Ha%subseteq_take. by eapply overflow_ordered_geo.
Qed.

Lemma length_extra_le articles :
  length (extra articles) + length (first_picks articles) ≤ 9.
Proof.
  rewrite extra_unfold, remaining_needed_eq.
  pose proof (length_first_picks articles).
  case_decide; [rewrite length_take|simpl]; lia.
Qed.

(** The three selected lists hold the first picks and the overflow
    picks, each article once. *)
Lemma picked_perm articles :
  (picked articles).1.1 ++ (picked articles).1.2 ++ (picked articles).2
  ≡ₚ first_picks articles ++ extra articles.
Proof.
  rewrite picked_unfold. simpl. unfold first_picks.
  rewrite (by_geo_partition (extra articles)) at 4 by apply extra_geo.
  unfold SLOTS_ROMANIA, SLOTS_EUROPE, SLOTS_GLOBAL.
  generalize (by_geo "romania" (extra articles))
             (by_geo "europe" (extra articles))
             (by_geo "global" (extra articles))
             (take 3 (bucket "romania" articles))
             (take 3 (bucket "europe" articles))
             (take 3 (bucket "global" articles)).
  intros xr xe xg pr pe pg. solve_Permutation.
Qed.

Lemma balanced_selection_unfold articles :
  balanced_selection articles
  = take 9 (interleave (picked articles).1.1 (picked articles).1.2
                       (picked articles).2).
Proof. unfold balanced_selection. by destruct (picked articles) as [[??]?]. Qed.

(** The final cut to nine articles never removes anything. *)
Lemma balanced_selection_perm articles :
  balanced_selection articles ≡ₚ first_picks articles ++ extra articles.
Proof.
  rewrite balanced_selection_unfold, take_ge.
  - by rewrite interleave_is_round_robin, round_robin_perm, picked_perm.
  - rewrite interleave_is_round_robin, round_robin_perm, picked_perm.
    rewrite length_app. pose proof (length_extra_le articles). lia.
Qed.

End selection.

(** ** Balanced selector *)

Lemma sorted_drop n (l : list Article) :
  StronglySorted score_ge l → StronglySorted score_ge (drop n l).
Proof.
  intros Hl. rewrite <-(take_drop n l) in Hl.
  by apply StronglySorted_app in Hl as (_ & _ & ?).
Qed.

(** C1. For articles with pairwise distinct ids, each labelled romania,
    europe or global, the selection has exactly [min 9 n] articles, [n]
    being the number of input articles; and whatever the input, it has at
    most 9. *)
Theorem balanced_selection_length (articles : list Article) :
  length (balanced_selection articles) ≤ 9 ∧
  (NoDup (id <$> articles) →
   Forall (λ a, geo a ∈ GEOS) articles →
   length (balanced_selection articles) = 9 `min` length articles).
Proof.
  pose proof (length_extra_le articles) as Hle.
  rewrite balanced_selection_perm, length_app. split; [lia|].
  intros Hnd Hgeo.
  rewrite (by_geo_partition articles Hgeo) at 3.
  rewrite !length_app, <-!length_bucket.
  rewrite extra_unfold, remaining_needed_eq, overflow_ordered_eq by done.
  rewrite length_first_picks in *.
  case_decide; [rewrite length_take, !length_app, !length_drop|cbn [length]];
    lia.
Qed.

(** C2. When the top three of each bucket are fewer than nine articles,
    the remaining slots are filled from the articles not yet selected (those
    whose id is not the id of a selected article), taken in the order:
    unselected of the europe bucket, of the global bucket, of the romania
    bucket, each by descending score.  With pairwise distinct ids the
    unselected articles of a bucket are those after its third; then, with
    one romania article, both free slots go to europe when it holds at
    least five articles, and when it holds exactly four, its one unselected
    article fills the first slot and the best unselected global article the
    second. *)
Theorem overflow_priority (articles : list Article) :
  let ro := bucket "romania" articles in
  let eu := bucket "europe" articles in
  let gl := bucket "global" articles in
  let picks := take 3 ro ++ take 3 eu ++ take 3 gl in
  length picks < 9 →
  extra articles
    = take (9 - length picks)
           (unselected "europe" articles ++ unselected "global" articles
            ++ unselected "romania" articles) ∧
  StronglySorted score_ge (unselected "europe" articles) ∧
  StronglySorted score_ge (unselected "global" articles) ∧
  StronglySorted score_ge (unselected "romania" articles) ∧
  balanced_selection articles ≡ₚ picks ++ extra articles ∧
  (NoDup (id <$> articles) →
     unselected "europe" articles = drop 3 eu ∧
     unselected "global" articles = drop 3 gl ∧
     unselected "romania" articles = drop 3 ro ∧
     (length ro = 1 → 5 ≤ length eu → 4 ≤ length gl →
        extra articles = take 2 (drop 3 eu)) ∧
     (length ro = 1 → length eu = 4 → 4 ≤ length gl →
        extra articles = drop 3 eu ++ take 1 (drop 3 gl))).
Proof.
  intros ro eu gl picks Hlt.
  change picks with (first_picks articles) in *.
  assert (extra articles
          = take (9 - length (first_picks articles))
                 (overflow_ordered articles (first_picks articles)))
    as Hextra.
  { rewrite extra_unfold, remaining_needed_eq.
    rewrite decide_True by lia. f_equal. lia. }
  pose proof (length_first_picks articles) as Hpicks.
  fold ro eu gl in Hpicks.
  split_and!; try apply sorted_unselected.
  - by rewrite Hextra, overflow_ordered_unselected.
  - apply balanced_selection_perm.
  - intros Hnd. rewrite overflow_ordered_eq in Hextra by done.
    fold ro eu gl in Hextra.
    split_and!;
      try (apply unselected_drop;
           auto using geos_romania, geos_europe, geos_global).
    + intros Hro Heu Hgl. rewrite Hextra.
      replace (9 - length (first_picks articles)) with 2 by lia.
      rewrite take_app_le; [done|]. rewrite length_drop. lia.
    + intros Hro Heu Hgl. rewrite Hextra.
      replace (9 - length (first_picks articles)) with 2 by lia.
      rewrite take_app_ge by (rewrite length_drop; lia).
      rewrite length_drop, Heu. f_equal.
      rewrite take_app_le; [done|]. rewrite length_drop. lia.
Qed.

(** C3. The result is the round robin by index over the three selected
    lists (romania, europe, global; an exhausted list is skipped), cut to
    nine: each round emits the next article of every list that still has
    one; with three articles per bucket the order is romania 1, europe 1,
    global 1, romania 2, and so on; and on the scenario of the
    specification the result is country 10, region 9, worldwide 20,
    country 8, region 7, worldwide 19, country 5, worldwide 18,
    worldwide 17. *)
Theorem balanced_selection_round_robin :
  (∀ articles,
     balanced_selection articles
     = take 9 (round_robin (picked articles).1.1 (picked articles).1.2
                           (picked articles).2)) ∧
  (∀ ro eu gl,
     ro ++ eu ++ gl ≠ [] →
     interleave ro eu gl
     = option_list (head ro) ++ option_list (head eu) ++ option_list (head gl)
       ++ interleave (tail ro) (tail eu) (tail gl)) ∧
  (∀ r1 r2 r3 e1 e2 e3 g1 g2 g3 ro eu gl articles,
     bucket "romania" articles = r1 :: r2 :: r3 :: ro →
     bucket "europe" articles = e1 :: e2 :: e3 :: eu →
     bucket "global" articles = g1 :: g2 :: g3 :: gl →
     balanced_selection articles = [r1; e1; g1; r2; e2; g2; r3; e3; g3]) ∧
  balanced_selection scenario
  = [mk_article "c10" "romania" 10; mk_article "r9" "europe" 9;
     mk_article "w20" "global" 20; mk_article "c8" "romania" 8;
     mk_article "r7" "europe" 7; mk_article "w19" "global" 19;
     mk_article "c5" "romania" 5; mk_article "w18" "global" 18;
     mk_article "w17" "global" 17].
Proof.
  split_and!.
  - intros articles.
    by rewrite balanced_selection_unfold, interleave_is_round_robin.
  - intros ro eu gl Hne. rewrite !interleave_is_round_robin.
    by apply round_robin_step.
  - intros r1 r2 r3 e1 e2 e3 g1 g2 g3 ro eu gl articles Hro Heu Hgl.
    assert (extra articles = []) as Hextra.
    { rewrite extra_unfold, remaining_needed_eq, length_first_picks.
      rewrite Hro, Heu, Hgl. simpl length. by rewrite decide_False by lia. }
    rewrite balanced_selection_unfold, picked_unfold, Hextra, Hro, Heu, Hgl.
    reflexivity.
  - vm_compute. reflexivity.
Qed.

(** ** Entry normaliser *)

Section normaliser_facts.
Variable soup_text : string → option string.
Variable strftime : datetime → string.
Variable md5_hex : string → string.

Lemma length_take_le n s : String.length (Str.take n s) ≤ n.
Proof.
  revert s. induction n as [|n IH]; intros [|c s]; simpl; try lia.
  specialize (IH s). lia.
Qed.

Lemma take_drop_str n s : Str.take n s +:+ Str.drop n s = s.
Proof.
  revert s. induction n as [|n IH]; intros [|c s]; try done.
  simpl. by rewrite StrFacts.app_cons, IH.
Qed.

Lemma before_last_space_None t : before_last_space t = None → no_space t.
Proof.
  unfold no_space. induction t as [|c t IH]; [done|]. simpl.
  destruct (before_last_space t); [done|].
  unfold is_char. destruct (bool_decide (" "%char = c)); [done|].
  intros _. by rewrite IH.
Qed.

(** [before_last_space] splits at the last space. *)
Lemma before_last_space_Some t p :
  before_last_space t = Some p →
  ∃ w, t = p +:+ " " +:+ w ∧ no_space w.
Proof.
  revert p. induction t as [|c t IH]; intros p; [done|]. simpl.
  destruct (before_last_space t) as [q|] eqn:Hq.
  - intros [= <-]. destruct (IH q eq_refl) as (w & -> & Hw). by exists w.
  - unfold is_char. case_bool_decide as Hc; [|done]. intros [= <-].
    subst c. exists t. split; [done|]. by apply before_last_space_None.
Qed.

Lemma length_rsplit1_head t :
  String.length (rsplit1_head t) ≤ String.length t.
Proof.
  unfold rsplit1_head. destruct (before_last_space t) as [p|] eqn:Hp; [|done].
  apply before_last_space_Some in Hp as (w & -> & _).
  rewrite StrFacts.length_app. simpl. lia.
Qed.

Lemma length_truncate_summary s : String.length (truncate_summary s) ≤ 220.
Proof.
  unfold truncate_summary. case_bool_decide; [|lia].
  rewrite StrFacts.length_app. change (String.length "...") with 3.
  pose proof (length_rsplit1_head (Str.take 217 s)).
  pose proof (length_take_le 217 s). lia.
Qed.

(** A summary is text, so cleaning it does not raise. *)
Lemma clean_html_text s : ∃ s', clean_html soup_text (PStr s) = Ok s'.
Proof.
  unfold clean_html. cbn [soup_get_text clean_text].
  destruct (soup_text s); eauto.
Qed.

(** Cleaning a summary raises on the objects that the HTML parser rejects,
    and on nothing else. *)
Lemma clean_html_Raise html :
  clean_html soup_text html = Raise ↔ ∃ b, html = PObj b None.
Proof.
  unfold clean_html. destruct html as [s|b [text|]];
    cbn [soup_get_text clean_text].
  - destruct (soup_text s); split; try done; by intros [? [=]].
  - split; [done|by intros [? [=]]].
  - split; [by exists b|done].
Qed.

(** What an accepted entry looks like. *)
Lemma parse_entry_Some now entry cfg a :
  parse_entry soup_text strftime md5_hex now entry cfg = Some a →
  ∃ t u s,
    entry_get (Entry.title entry) = PStr t ∧
    15 ≤ String.length (clean_text_str t) ∧
    entry_get (Entry.link entry) = PStr u ∧ u ≠ "" ∧
    clean_html soup_text (summary_raw entry) = Ok s ∧
    ¬ too_old now entry ∧
    title a = clean_text_str t ∧
    summary a = (if bool_decide (truncate_summary s = "")
                 then clean_text_str t else truncate_summary s).
Proof.
  unfold parse_entry, parse_entry_body, too_old.
  destruct (entry_get (Entry.title entry)) as [t|b p] eqn:Ht;
    cbn [clean_text exn_bind]; [|done].
  destruct (_ || _) eqn:Hshort; [done|].
  apply orb_false_iff in Hshort as [_ Hlen%bool_decide_eq_false].
  destruct (entry_get (Entry.link entry)) as [u|b p] eqn:Hu; cbn [truthy].
  - case_bool_decide as Hue; cbn [negb]; [done|].
    destruct (clean_html soup_text (summary_raw entry)) as [s|] eqn:Hs;
      cbn [exn_bind]; [|done].
    destruct (resolve_date entry) as [d|] eqn:Hd; cbn [from_option].
    + case_bool_decide as Hold; [done|]. intros [= <-].
      exists t, u, s. split_and!; try done; [lia|].
      intros (d' & [= <-] & Hd'). by apply delta_days_max_age in Hd'.
    + intros [= <-]. exists t, u, s. split_and!; try done; [lia|].
      by intros (d' & [=] & ?).
  - destruct b; cbn [negb]; [|done].
    destruct (clean_html soup_text (summary_raw entry)); cbn [exn_bind];
      [|done].
    by destruct (from_option _ _ _).
Qed.

End normaliser_facts.

Section normaliser_properties.
Variable soup_text : string → option string.
Variable strftime : datetime → string.
Variable md5_hex : string → string.

Lemma app_dots_not_nil p : p +:+ "..." ≠ "".
Proof. by destruct p. Qed.

Lemma truncate_summary_nil s : truncate_summary s = "" ↔ s = "".
Proof.
  unfold truncate_summary. case_bool_decide as Hlen; [|done]. split.
  - by intros ?%app_dots_not_nil.
  - intros ->. simpl in Hlen. lia.
Qed.

(** C7. The summary built from a cleaned text of more than 220
    characters always ends with the marker ["..."].  When the first 217
    characters hold a space, the text is cut at the last space among
    them, so the summary does not end inside a word; when they hold
    none, the summary is those 217 characters followed by the marker. *)
Theorem summary_truncation now entry cfg s a :
  clean_html soup_text (summary_raw entry) = Ok s →
  220 < String.length s →
  parse_entry soup_text strftime md5_hex now entry cfg = Some a →
  ∃ p, summary a = p +:+ "..." ∧
    ((∃ w rest, s = p +:+ " " +:+ w +:+ rest
                ∧ Str.take 217 s = p +:+ " " +:+ w ∧ no_space w)
     ∨ (p = Str.take 217 s ∧ no_space p)).
Proof.
  intros Hs Hlen Ha. apply parse_entry_Some in Ha
    as (t & u & s' & _ & _ & _ & _ & Hs' & _ & _ & Hsum).
  assert (s' = s) as -> by congruence.
  rewrite bool_decide_eq_false_2 in Hsum
    by (rewrite truncate_summary_nil; intros ->; simpl in Hlen; lia).
  unfold truncate_summary in Hsum.
  rewrite bool_decide_eq_true_2 in Hsum by done.
  exists (rsplit1_head (Str.take 217 s)). split; [done|].
  unfold rsplit1_head.
  destruct (before_last_space (Str.take 217 s)) as [p|] eqn:Hp; simpl.
  - left. apply before_last_space_Some in Hp as (w & Hw & Hno).
    exists w, (Str.drop 217 s). split_and!; [|done..].
    rewrite <-(take_drop_str 217 s) at 1.
    by rewrite Hw, !StrFacts.app_assoc.
  - right. split; [done|]. by apply before_last_space_None.
Qed.

(** C8. A summary taken from a non-empty cleaned text has at
    most 220 characters; when the cleaned text is empty the summary is
    the title, as long as the title is. *)
Theorem summary_length now entry cfg a :
  parse_entry soup_text strftime md5_hex now entry cfg = Some a →
  ∃ s, clean_html soup_text (summary_raw entry) = Ok s ∧
    (s ≠ "" → String.length (summary a) ≤ 220) ∧
    (s = "" → summary a = title a ∧ 15 ≤ String.length (summary a)).
Proof.
  intros Ha. apply parse_entry_Some in Ha
    as (t & u & s & _ & Hlen & _ & _ & Hs & _ & Htitle & Hsum).
  exists s. split; [done|]. split.
  - intros Hne. rewrite Hsum, bool_decide_eq_false_2
      by by rewrite truncate_summary_nil.
    apply length_truncate_summary.
  - intros ->. rewrite Hsum, Htitle. by rewrite bool_decide_eq_true_2.
Qed.

(** C9. The normaliser returns nothing exactly when the cleaned title has
    fewer than 15 characters (none included), or the link is empty, or a
    timestamp was resolved and at least fifteen days have elapsed since,
    or the title or the link is not text, or the summary is an object that
    the HTML parser rejects as well; it never raises.  An entry without a
    resolvable timestamp is rejected for one of the other causes only. *)
Theorem parse_entry_rejects now entry cfg :
  (parse_entry soup_text strftime md5_hex now entry cfg = None
   ↔ title_too_short entry ∨ link_empty entry ∨ too_old now entry
     ∨ malformed entry) ∧
  (resolve_date entry = None →
   ¬ title_too_short entry → ¬ link_empty entry → ¬ malformed entry →
   is_Some (parse_entry soup_text strftime md5_hex now entry cfg)).
Proof.
  assert (parse_entry soup_text strftime md5_hex now entry cfg = None
   ↔ title_too_short entry ∨ link_empty entry ∨ too_old now entry
     ∨ malformed entry) as Hiff.
  { unfold parse_entry, parse_entry_body.
    unfold title_too_short, link_empty, too_old, malformed.
    destruct (entry_get (Entry.title entry)) as [t|b p] eqn:Ht;
      cbn [clean_text exn_bind];
      [|split; [intros _; do 3 right; left; by exists b, p|done]].
    destruct (_ || _) eqn:Hshort.
    { split; [intros _|done]. left. exists t. split; [done|].
      apply orb_true_iff in Hshort as [Hnil|Hlen].
      - apply bool_decide_eq_true in Hnil. rewrite Hnil. simpl. lia.
      - by apply bool_decide_eq_true in Hlen. }
    apply orb_false_iff in Hshort as [_ Hlen%bool_decide_eq_false].
    destruct (entry_get (Entry.link entry)) as [u|b p] eqn:Hu; cbn [truthy].
    2: { split; [intros _; do 3 right; right; left; by exists b, p|intros _].
         destruct b; cbn [negb]; [|done].
         destruct (clean_html soup_text (summary_raw entry));
           cbn [exn_bind]; [|done].
         by destruct (from_option _ _ _). }
    case_bool_decide as Hue; cbn [negb];
      [subst u; split; [intros _; right; by left|done]|].
    destruct (clean_html soup_text (summary_raw entry)) as [s|] eqn:Hs;
      cbn [exn_bind].
    2: { split; [intros _|done]. do 3 right. right; right.
         by apply (clean_html_Raise soup_text). }
    assert (∀ b, summary_raw entry ≠ PObj b None) as Hsum.
    { intros b Hb.
      assert (clean_html soup_text (summary_raw entry) = Raise) as Hraise
        by (apply clean_html_Raise; by exists b).
      congruence. }
    destruct (resolve_date entry) as [d|] eqn:Hd; cbn [from_option].
    - case_bool_decide as Hold.
      + split; [intros _|done]. right; right; left. exists d.
        split; [done|]. by apply delta_days_max_age in Hold.
      + split; [done|].
        intros [(t' & [= <-] & ?)|[[=]|[(d' & [= <-] & Hd')|Hmal]]];
          [lia|done|by apply delta_days_max_age in Hd'|].
        destruct Hmal as [(? & ? & [=])|[(? & ? & [=])|[b Hb]]].
        by destruct (Hsum b).
    - split; [done|].
      intros [(t' & [= <-] & ?)|[[=]|[(d' & [=] & ?)|Hmal]]]; [lia|done|].
      destruct Hmal as [(? & ? & [=])|[(? & ? & [=])|[b Hb]]].
      by destruct (Hsum b). }
  split; [done|].
  intros Hdate Htitle Hlink Hmal.
  destruct (parse_entry _ _ _ _ _ _) eqn:Hp; [done|].
  destruct (proj1 Hiff eq_refl) as [?|[?|[(d & Hd & _)|?]]]; try done.
  congruence.
Qed.

End normaliser_properties.

(** ** Worked inputs *)

Lemma balanced_selection_length_witness :
  length (balanced_selection two_articles) = 9 `min` length two_articles.
Proof.
  apply (proj2 (balanced_selection_length two_articles)).
  - apply (bool_decide_unpack _). vm_compute. exact I.
  - apply (bool_decide_unpack _). vm_compute. exact I.
Defined.

(** With one country article and four articles in each other bucket, the
    second free slot goes to a worldwide article. *)
Lemma overflow_priority_counterexample :
  NoDup (id <$> one_four_four) ∧
  length (bucket "romania" one_four_four) = 1 ∧
  4 ≤ length (bucket "europe" one_four_four) ∧
  4 ≤ length (bucket "global" one_four_four) ∧
  extra one_four_four
  = [mk_article "r4" "europe" 6; mk_article "w4" "global" 1] ∧
  ¬ Forall (λ a, geo a = "europe") (extra one_four_four).
Proof.
  split_and!.
  - apply (bool_decide_unpack _). vm_compute. exact I.
  - vm_compute. reflexivity.
  - vm_compute. lia.
  - vm_compute. lia.
  - vm_compute. reflexivity.
  - intros H. apply (bool_decide_pack _) in H. vm_compute in H. exact H.
Qed.

Lemma overflow_priority_witness :
  extra one_four_four
  = drop 3 (bucket "europe" one_four_four)
    ++ take 1 (drop 3 (bucket "global" one_four_four)).
Proof.
  pose proof (overflow_priority one_four_four) as H. cbv zeta in H.
  destruct H as (_ & _ & _ & _ & _ & H).
  - vm_compute. lia.
  - destruct H as (_ & _ & _ & _ & H).
    + apply (bool_decide_unpack _). vm_compute. exact I.
    + apply H; vm_compute; lia.
Defined.

Lemma classify_geography_priority_witness :
  geo (classify_geography both_keywords) = "romania" ∧
  geo (classify_geography hinted_europe) = "europe".
Proof.
  split.
  - pose proof (classify_geography_priority both_keywords) as H.
    cbv zeta in H. destruct H as (_ & _ & _ & H). apply H.
    + exists "bucharest". split.
      * apply (bool_decide_unpack _). vm_compute. exact I.
      * apply StrFacts.contains_spec. vm_compute. exact I.
    + exists "europe". split.
      * apply (bool_decide_unpack _). vm_compute. exact I.
      * apply StrFacts.contains_spec. vm_compute. exact I.
  - pose proof (classify_geography_priority hinted_europe) as H.
    cbv zeta in H. destruct H as (_ & _ & H & _).
    destruct H as (_ & H & _).
    + intros Hkw%keyword_hits_pos. vm_compute in Hkw. lia.
    + intros Hkw%keyword_hits_pos. vm_compute in Hkw. lia.
    + apply H. reflexivity.
Defined.

Lemma score_article_formula_witness :
  score (score_article now0 clickbait_only) = 0%Z.
Proof.
  apply (score_article_formula now0 clickbait_only); vm_compute; reflexivity.
Defined.

(** An article stamped one day, 23 hours and 59 minutes before [now0] is
    more than one day old and no more than three; it gets the bonus of 6
    where the specification grants 4. *)
Lemma score_article_formula_counterexample :
  article_elapsed now0 nearly_two_days = Some (1 * DAY + 86340000000)%Z ∧
  bonus_as_specified (article_elapsed now0 nearly_two_days) = 4%Z ∧
  score (score_article now0 nearly_two_days) = 6%Z ∧
  Z.max 0 (4 * matches KEYWORDS_HIGH_VALUE (article_text nearly_two_days)
           + 1 * matches KEYWORDS_MEDIUM_VALUE (article_text nearly_two_days)
           + bonus_as_specified (article_elapsed now0 nearly_two_days)
           - 5 * matches CLICKBAIT (article_text nearly_two_days)) = 4%Z.
Proof. split_and!; vm_compute; reflexivity. Qed.

Lemma deduplicate_first_wins_witness :
  deduplicate [dup_first; dup_second] = [dup_first].
Proof.
  apply deduplicate_first_wins. vm_compute. reflexivity.
Defined.

Lemma balanced_selection_round_robin_witness :
  balanced_selection (rev one_four_four ++ [mk_article "c0" "romania" 7;
                                            mk_article "c2" "romania" 1])
  = [mk_article "c0" "romania" 7; mk_article "r1" "europe" 9;
     mk_article "w1" "global" 4; mk_article "c1" "romania" 5;
     mk_article "r2" "europe" 8; mk_article "w2" "global" 3;
     mk_article "c2" "romania" 1; mk_article "r3" "europe" 7;
     mk_article "w3" "global" 2].
Proof.
  pose proof balanced_selection_round_robin as (_ & _ & H & _).
  eapply H; vm_compute; reflexivity.
Defined.

(** A summary of 221 letters is cut after the 217th. *)
Lemma summary_truncation_counterexample :
  clean_html plain_soup (summary_raw unbroken_entry)
  = Ok (repeat_str 221 "a") ∧
  220 < String.length (repeat_str 221 "a") ∧
  summary <$> parse_entry plain_soup no_strftime no_md5 now0
                          unbroken_entry feed0
  = Some (repeat_str 217 "a" +:+ "...") ∧
  repeat_str 221 "a" = repeat_str 217 "a" +:+ "aaaa" ∧
  ¬ cut_at_space (repeat_str 221 "a") (repeat_str 217 "a").
Proof.
  split_and!.
  - vm_compute. reflexivity.
  - vm_compute. lia.
  - vm_compute. reflexivity.
  - vm_compute. reflexivity.
  - intros [rest Hrest].
    assert (Str.substring " " (repeat_str 221 "a")) as Hsub
      by by exists (repeat_str 217 "a"), rest.
    apply StrFacts.contains_spec in Hsub. vm_compute in Hsub. exact Hsub.
Qed.

Lemma summary_truncation_witness :
  ∃ a,
    parse_entry plain_soup no_strftime no_md5 now0 wordy_entry feed0
    = Some a ∧
    ∃ p, summary a = p +:+ "..." ∧
      ((∃ w rest, strip (repeat_str 50 "word ") = p +:+ " " +:+ w +:+ rest
                  ∧ Str.take 217 (strip (repeat_str 50 "word "))
                    = p +:+ " " +:+ w
                  ∧ no_space w)
       ∨ (p = Str.take 217 (strip (repeat_str 50 "word ")) ∧ no_space p)).
Proof.
  eexists. split; [vm_compute; reflexivity|].
  apply (summary_truncation plain_soup no_strftime no_md5 now0 wordy_entry
                            feed0).
  - vm_compute. reflexivity.
  - vm_compute. lia.
  - vm_compute. reflexivity.
Defined.

(** A title of 230 characters stands in for an empty summary. *)
Lemma summary_length_counterexample :
  (λ a, String.length (summary a))
    <$> parse_entry plain_soup no_strftime no_md5 now0 long_title_entry feed0
  = Some 230.
Proof. vm_compute. reflexivity. Qed.

Lemma summary_length_witness :
  ∃ a,
    parse_entry plain_soup no_strftime no_md5 now0 wordy_entry feed0
    = Some a ∧
    ∃ s, clean_html plain_soup (summary_raw wordy_entry) = Ok s ∧
      (s ≠ "" → String.length (summary a) ≤ 220) ∧
      (s = "" → summary a = title a ∧ 15 ≤ String.length (summary a)).
Proof.
  eexists. split; [vm_compute; reflexivity|].
  apply (summary_length plain_soup no_strftime no_md5 now0 wordy_entry feed0).
  vm_compute. reflexivity.
Defined.

Lemma parse_entry_rejects_witness :
  is_Some (parse_entry plain_soup no_strftime no_md5 now0 undated_entry feed0).
Proof.
  apply (parse_entry_rejects plain_soup no_strftime no_md5 now0 undated_entry
                             feed0).
  - reflexivity.
  - intros (s & [= <-] & Hlen). vm_compute in Hlen. lia.
  - intros [=].
  - intros [(b & p & [=])|[(b & p & [=])|[b [=]]]].
Defined.

(** An entry published fourteen days, 23 hours, 59 minutes and 59 seconds
    before [now0] is more than fourteen days old, and it is accepted. *)
Lemma parse_entry_rejects_counterexample :
  older_than_14_days now0 nearly_fifteen_days ∧
  is_Some (parse_entry plain_soup no_strftime no_md5 now0
                       nearly_fifteen_days feed0).
Proof.
  split.
  - eexists. split; [vm_compute; reflexivity|]. vm_compute. reflexivity.
  - vm_compute. by eexists.
Qed.

Lemma classify_score_frame_witness :
  classify_geography_ref 7 {[7 := both_keywords]}
  = (7, <[7 := classify_geography both_keywords]> {[7 := both_keywords]}) ∧
  agree_but_geo both_keywords (classify_geography both_keywords) ∧
  score_article_ref now0 7 {[7 := both_keywords]}
  = (7, <[7 := score_article now0 both_keywords]> {[7 := both_keywords]}) ∧
  agree_but_score both_keywords (score_article now0 both_keywords).
Proof.
  apply (classify_score_frame now0 7 {[7 := both_keywords]} both_keywords).
  vm_compute. reflexivity.
Defined.

(** ** The age limit at work *)

(** Published fifteen days and an hour before [now0]: rejected. *)
Example parse_entry_old :
  parse_entry plain_soup no_strftime no_md5 now0
              (dated_entry [2024; 3; 5; 11; 0; 0; 1; 65; 0]%Z) feed0
  = None.
Proof. vm_compute. reflexivity. Qed.

(** Published fourteen days and twenty-three hours before [now0]: the age
    in whole days is 14 and the entry is kept. *)
Example parse_entry_fourteen_days :
  date_obj <$> parse_entry plain_soup no_strftime no_md5 now0
                 (dated_entry [2024; 3; 5; 13; 0; 0; 1; 65; 0]%Z) feed0
  = Some (IsoDate {| year := 2024; month := 3; day := 5; hour := 13;
                     minute := 0; second := 0; microsecond := 0 |}).
Proof. vm_compute. reflexivity. Qed.

(** A second beyond 59 makes the constructor raise; the other date field
    is tried next, and without one the entry carries no timestamp. *)
Example parse_entry_bad_date :
  date_obj <$> parse_entry plain_soup no_strftime no_md5 now0
                 (dated_entry [2020; 1; 1; 0; 0; 60; 2; 1; 0]%Z) feed0
  = Some NoDate.
Proof. vm_compute. reflexivity. Qed.

(** ** Summaries that are not text *)

(** Bytes are decoded by the HTML parser, and the entry is accepted. *)
Example parse_entry_bytes_summary :
  summary <$> parse_entry plain_soup no_strftime no_md5 now0
                bytes_summary_entry feed0
  = Some "Occupancy is up.".
Proof. vm_compute. reflexivity. Qed.

(** When the HTML parser raises on the object, so does the regular
    expression that stands in for it: the entry is rejected. *)
Example parse_entry_unreadable_summary :
  parse_entry plain_soup no_strftime no_md5 now0 unreadable_summary_entry
              feed0
  = None.
Proof. vm_compute. reflexivity. Qed.

(** ** The text functions at work *)

Example clean_text_markup :
  clean_text (PStr "<p>Hotels  <b>report</b>   record bookings</p> [...]")
  = Ok "Hotels report record bookings".
Proof. vm_compute. reflexivity. Qed.

(** A bracket pair with nothing inside is not a tag. *)
Example clean_text_empty_brackets :
  clean_text (PStr "rates <> fares, a < b and b > c")
  = Ok "rates <> fares, a c".
Proof. vm_compute. reflexivity. Qed.

Example dedup_key_title :
  dedup_key dup_first = "helloworldnewstoday" ∧
  dedup_key dup_second = "helloworldnewstoday".
Proof. vm_compute. split; reflexivity. Qed.

(** Equal scores keep their input order. *)
Example sort_ties :
  id <$> sort_by_score_desc
           [mk_article "a" "global" 3; mk_article "b" "global" 7;
            mk_article "c" "global" 3; mk_article "d" "global" 7]
  = ["b"; "d"; "a"; "c"].
Proof. vm_compute. reflexivity. Qed.

(** ** The scorer at work *)

(** Two high-value phrases, three medium-value words, a date two days
    back: 4 + 4 + 1 + 1 + 1 + 4. *)
Example score_article_sum :
  score (score_article now0
           {| id := "0123456789ab";
              title := "Sustainable tourism strategy for hotel resorts";
              summary := "A plan."; url := "https://example.org/";
              source := "Example"; feed_geo := "global"; geo := "global";
              date := "March 18, 2024";
              date_obj := IsoDate {| year := 2024; month := 3; day := 18;
                                     hour := 9; minute := 30; second := 0;
                                     microsecond := 0 |};
              score := 0 |})
  = 15%Z.
Proof. vm_compute. reflexivity. Qed.

(** A keyword that occurs three times counts once. *)
Example score_article_membership :
  score (score_article now0
           (raw_article "Cruise news: cruise lines add cruise ships" ""
                        "global"))
  = 1%Z.
Proof. vm_compute. reflexivity. Qed.

(** * Further properties *)

(** ** Classifier and scorer *)

Lemma lower_app s t : Str.lower (s +:+ t) = Str.lower s +:+ Str.lower t.
Proof.
  induction s as [|c s IH]; [done|].
  rewrite StrFacts.app_cons. simpl. by rewrite IH.
Qed.

Lemma article_text_lower a :
  article_text a = Str.lower (title a) +:+ " " +:+ Str.lower (summary a).
Proof. unfold article_text. by rewrite !lower_app. Qed.

Lemma geo_set_geo g a : geo (set_geo g a) = g.
Proof. reflexivity. Qed.

Lemma classify_geography_cases a :
  classify_geography a = set_geo "romania" a
  ∨ classify_geography a = set_geo "europe" a
  ∨ classify_geography a = set_geo "global" a.
Proof. unfold classify_geography. repeat case_decide; auto. Qed.

Lemma classify_geography_set_geo g a :
  classify_geography (set_geo g a) = classify_geography a.
Proof.
  unfold classify_geography.
  change (article_text (set_geo g a)) with (article_text a).
  change (feed_geo (set_geo g a)) with (feed_geo a).
  repeat case_decide; reflexivity.
Qed.

(** The classifier always leaves one of the three labels, whatever [geo]
    held before, and classifying twice is classifying once. *)
Theorem classify_geography_label (a : Article) :
  geo (classify_geography a) ∈ GEOS ∧
  (∀ g, geo (classify_geography (set_geo g a)) = geo (classify_geography a)) ∧
  classify_geography (classify_geography a) = classify_geography a.
Proof.
  split_and!.
  - unfold GEOS. rewrite !elem_of_cons.
    destruct (classify_geography_cases a) as [-> | [-> | ->]];
      rewrite geo_set_geo; tauto.
  - intros g. by rewrite classify_geography_set_geo.
  - destruct (classify_geography_cases a) as [H|[H|H]];
      rewrite H at 1; rewrite classify_geography_set_geo;
      rewrite H; reflexivity.
Qed.

Lemma score_article_set_geo now g a :
  score_article now (set_geo g a) = set_geo g (score_article now a).
Proof. reflexivity. Qed.

Lemma classify_geography_set_score s a :
  classify_geography (set_score s a) = set_score s (classify_geography a).
Proof.
  unfold classify_geography.
  change (article_text (set_score s a)) with (article_text a).
  change (feed_geo (set_score s a)) with (feed_geo a).
  repeat case_decide; reflexivity.
Qed.

(** Classifying and scoring commute: the order of the two passes of the
    run does not matter. *)
Theorem classify_score_commute (now : datetime) (a : Article) :
  score_article now (classify_geography a)
  = classify_geography (score_article now a).
Proof.
  destruct (classify_geography_cases a) as [H|[H|H]];
    rewrite H, score_article_set_geo;
    unfold score_article at 2; rewrite classify_geography_set_score, H;
    reflexivity.
Qed.

(** Titles and summaries that differ only in letter case are classified
    and scored alike. *)
Theorem classify_score_case_insensitive (now : datetime) (a b : Article) :
  Str.lower (title a) = Str.lower (title b) →
  Str.lower (summary a) = Str.lower (summary b) →
  (feed_geo a = feed_geo b →
   geo (classify_geography a) = geo (classify_geography b)) ∧
  (date_obj a = date_obj b →
   score (score_article now a) = score (score_article now b)).
Proof.
  intros Htitle Hsummary.
  assert (article_text a = article_text b) as Htext
    by by rewrite !article_text_lower, Htitle, Hsummary.
  split.
  - intros Hfeed. unfold classify_geography. rewrite Htext, Hfeed.
    repeat case_decide; reflexivity.
  - intros Hdate. unfold score_article, set_score. cbn [score].
    by rewrite Htext, Hdate.
Qed.

Lemma classify_score_case_insensitive_witness :
  geo (classify_geography loud_article)
  = geo (classify_geography quiet_article) ∧
  score (score_article now0 loud_article)
  = score (score_article now0 quiet_article).
Proof.
  destruct (classify_score_case_insensitive now0 loud_article quiet_article)
    as [Hgeo Hscore]; [vm_compute; reflexivity..|].
  split; [apply Hgeo|apply Hscore]; reflexivity.
Defined.

Lemma matches_le_length kws text :
  (matches kws text ≤ Z.of_nat (length kws))%Z.
Proof.
  unfold matches.
  pose proof (length_filter (λ kw, Str.contains kw text) kws). lia.
Qed.

Lemma score_score_article now a :
  score (score_article now a)
  = Z.max 0 (4 * matches KEYWORDS_HIGH_VALUE (article_text a)
             + matches KEYWORDS_MEDIUM_VALUE (article_text a)
             + recency_bonus (article_age now a)
             - 5 * matches CLICKBAIT (article_text a)).
Proof.
  unfold score_article, set_score. cbn [score].
  rewrite !add_matches_sum. unfold article_age, recency_bonus.
  destruct (date_obj a); repeat case_decide; lia.
Qed.

(** No article scores above 173 (36 high-value keywords, 23 medium-value
    keywords and the full recency bonus), and none without a timestamp
    above 167. *)
Theorem score_article_upper_bound (now : datetime) (a : Article) :
  (score (score_article now a) ≤ 173)%Z ∧
  (article_age now a = None → score (score_article now a) ≤ 167)%Z.
Proof.
  rewrite score_score_article.
  pose proof (matches_le_length KEYWORDS_HIGH_VALUE (article_text a)) as Hh.
  pose proof (matches_le_length KEYWORDS_MEDIUM_VALUE (article_text a)) as Hm.
  pose proof (matches_nonneg CLICKBAIT (article_text a)) as Hc.
  change (length KEYWORDS_HIGH_VALUE) with 36 in Hh.
  change (length KEYWORDS_MEDIUM_VALUE) with 23 in Hm.
  split.
  - assert (recency_bonus (article_age now a) ≤ 6)%Z
      by (unfold recency_bonus; destruct (article_age now a);
          repeat case_decide; lia).
    lia.
  - intros ->. simpl recency_bonus. lia.
Qed.

(** The recency bonus in elapsed time: 6 for a timestamp less than two
    days back (a timestamp in the future included), 4 for less than four
    days, 2 for less than eight days, nothing from eight days on. *)
Theorem score_article_recency (now : datetime) (a : Article) (d : datetime) :
  date_obj a = IsoDate d →
  let base :=
    (4 * matches KEYWORDS_HIGH_VALUE (article_text a)
     + matches KEYWORDS_MEDIUM_VALUE (article_text a)
     - 5 * matches CLICKBAIT (article_text a))%Z in
  let elapsed := (to_micros now - to_micros d)%Z in
  let one_day := 86400000000%Z in
  ((elapsed < 2 * one_day)%Z →
   score (score_article now a) = Z.max 0 (base + 6)) ∧
  ((2 * one_day ≤ elapsed < 4 * one_day)%Z →
   score (score_article now a) = Z.max 0 (base + 4)) ∧
  ((4 * one_day ≤ elapsed < 8 * one_day)%Z →
   score (score_article now a) = Z.max 0 (base + 2)) ∧
  ((8 * one_day ≤ elapsed)%Z →
   score (score_article now a) = Z.max 0 base).
Proof.
  intros Hd base elapsed one_day. rewrite score_score_article.
  unfold article_age. rewrite Hd. unfold recency_bonus, delta_days.
  fold elapsed. fold one_day.
  assert (0 < one_day)%Z as Hpos by (unfold one_day; lia).
  pose proof (Z.div_lt_upper_bound elapsed one_day) as Hup.
  pose proof (Z.div_le_lower_bound elapsed one_day) as Hlow.
  split_and!; intros Hel; repeat case_decide; try lia.
  all: first [ specialize (Hup 2%Z Hpos); lia
             | specialize (Hup 4%Z Hpos); lia
             | specialize (Hup 8%Z Hpos); lia
             | specialize (Hlow 2%Z Hpos); lia
             | specialize (Hlow 4%Z Hpos); lia
             | specialize (Hlow 8%Z Hpos); lia ].
Qed.

Lemma score_article_recency_witness :
  score (score_article now0 future_article)
  = Z.max 0 (4 * matches KEYWORDS_HIGH_VALUE (article_text future_article)
             + matches KEYWORDS_MEDIUM_VALUE (article_text future_article)
             - 5 * matches CLICKBAIT (article_text future_article) + 6).
Proof.
  pose proof (score_article_recency now0 future_article tomorrow eq_refl) as H.
  cbv zeta in H. destruct H as (H & _). apply H. vm_compute. reflexivity.
Defined.

(** ** Deduplicator *)

Lemma dedup_from_keys seen l k :
  k ∈ (dedup_key <$> dedup_from seen l)
  ↔ (k ∉ seen) ∧ k ∈ (dedup_key <$> l).
Proof.
  revert seen. induction l as [|a l IH]; intros seen; simpl.
  - rewrite elem_of_nil. tauto.
  - case_decide as Hin; rewrite ?fmap_cons, !elem_of_cons, IH.
    + split; [tauto|]. intros [Hk [->|?]]; tauto.
    + rewrite elem_of_union, elem_of_singleton.
      destruct (decide (k = dedup_key a)) as [->|]; tauto.
Qed.

Lemma dedup_from_nodup seen l : NoDup (dedup_key <$> dedup_from seen l).
Proof.
  revert seen. induction l as [|a l IH]; intros seen; simpl.
  - constructor.
  - case_decide as Hin; [apply IH|]. rewrite fmap_cons.
    constructor; [|apply IH]. rewrite dedup_from_keys.
    rewrite elem_of_union, elem_of_singleton. tauto.
Qed.

Lemma dedup_from_fixed seen l :
  NoDup (dedup_key <$> l) → (∀ a, a ∈ l → dedup_key a ∉ seen) →
  dedup_from seen l = l.
Proof.
  revert seen. induction l as [|a l IH]; intros seen Hnd Hseen; [done|].
  rewrite fmap_cons in Hnd. apply NoDup_cons in Hnd as [Ha Hnd]. simpl.
  rewrite decide_False by (apply Hseen; left). f_equal.
  apply IH; [done|]. intros b Hb.
  rewrite elem_of_union, elem_of_singleton. intros [Heq|Hin].
  - apply Ha. rewrite <-Heq. by apply list_elem_of_fmap_2.
  - by apply (Hseen b); [right|].
Qed.

(** No two articles of the result share a key, and every key of the input
    is still there. *)
Theorem deduplicate_keys (l : list Article) :
  NoDup (dedup_key <$> deduplicate l) ∧
  (∀ k, k ∈ (dedup_key <$> deduplicate l) ↔ k ∈ (dedup_key <$> l)).
Proof.
  rewrite deduplicate_dedup_from. split; [apply dedup_from_nodup|].
  intros k. rewrite dedup_from_keys. rewrite elem_of_empty. tauto.
Qed.

(** A list without repeated keys is returned as it is; so deduplicating
    twice is deduplicating once. *)
Theorem deduplicate_idempotent (l : list Article) :
  (NoDup (dedup_key <$> l) → deduplicate l = l) ∧
  deduplicate (deduplicate l) = deduplicate l.
Proof.
  assert (∀ l', NoDup (dedup_key <$> l') → deduplicate l' = l') as Hfix.
  { intros l' Hnd. rewrite deduplicate_dedup_from.
    apply dedup_from_fixed; [done|]. intros a _. apply not_elem_of_empty. }
  split; [apply Hfix|]. apply Hfix.
  rewrite deduplicate_dedup_from. apply dedup_from_nodup.
Qed.

Lemma str_filter_app f s t :
  Str.filter f (s +:+ t) = Str.filter f s +:+ Str.filter f t.
Proof.
  induction s as [|c s IH]; [done|]. rewrite StrFacts.app_cons. simpl.
  destruct (f c); [|done]. by rewrite StrFacts.app_cons, IH.
Qed.

Lemma str_take_app_le n s t :
  n ≤ String.length s → Str.take n (s +:+ t) = Str.take n s.
Proof.
  revert s. induction n as [|n IH]; intros [|c s] Hn; simpl in *;
    try done; try lia.
  f_equal. apply IH. lia.
Qed.

Lemma str_length_filter_le f s :
  String.length (Str.filter f s) ≤ String.length s.
Proof.
  induction s as [|c s IH]; [done|]. simpl. destruct (f c); simpl; lia.
Qed.

(** The key has at most 50 characters, and only the first 50 letters and
    digits of a title count: titles that agree on them collide, whatever
    follows. *)
Theorem dedup_key_prefix (a b : Article) (common rest_a rest_b : string) :
  title a = common +:+ rest_a →
  title b = common +:+ rest_b →
  50 ≤ String.length (Str.filter is_alnum common) →
  dedup_key a = dedup_key b ∧
  String.length (dedup_key a) = 50 ∧
  deduplicate [a; b] = [a].
Proof.
  intros Ha Hb Hlen.
  assert (∀ rest, Str.take 50 (Str.filter is_key_char
                                 (Str.lower (common +:+ rest)))
                  = Str.take 50 (Str.filter is_key_char (Str.lower common)))
    as Hcut.
  { intros rest. rewrite lower_app, str_filter_app.
    apply str_take_app_le. rewrite filter_key_chars.
    etrans; [exact Hlen|].
    clear. induction common as [|c s IH]; [done|]. simpl.
    assert (is_alnum (Str.lower_char c) = is_alnum c) as ->
      by by destruct c as [[] [] [] [] [] [] [] []].
    destruct (is_alnum c); simpl; lia. }
  assert (dedup_key a = dedup_key b) as Hkey
    by (unfold dedup_key; by rewrite Ha, Hb, !Hcut).
  split_and!; [done| |].
  - unfold dedup_key. rewrite Ha, Hcut. clear Ha Hb Hcut Hkey.
    assert (50 ≤ String.length (Str.filter is_key_char (Str.lower common)))
      as Hlen'.
    { rewrite filter_key_chars. etrans; [exact Hlen|].
      clear. induction common as [|c s IH]; [done|]. simpl.
      assert (is_alnum (Str.lower_char c) = is_alnum c) as ->
        by by destruct c as [[] [] [] [] [] [] [] []].
      destruct (is_alnum c); simpl; lia. }
    revert Hlen'. generalize (Str.filter is_key_char (Str.lower common)).
    generalize 50. clear.
    induction n as [|n IH]; intros [|c s] Hn; simpl in *; try done; try lia.
    f_equal. apply IH. lia.
  - rewrite deduplicate_dedup_from. simpl.
    rewrite decide_False by apply not_elem_of_empty.
    rewrite decide_True; [done|].
    rewrite Hkey. apply elem_of_union_l. by apply elem_of_singleton.
Qed.

Lemma dedup_key_prefix_witness :
  dedup_key same_start_a = dedup_key same_start_b ∧
  String.length (dedup_key same_start_a) = 50 ∧
  deduplicate [same_start_a; same_start_b] = [same_start_a].
Proof.
  apply (dedup_key_prefix same_start_a same_start_b long_headline
                          " expand ferries" " close two piers").
  - reflexivity.
  - reflexivity.
  - vm_compute. lia.
Defined.

(** ** Balanced selector *)

Section selection_more.
Implicit Types (a b : Article) (l articles : list Article) (g : string).

Lemma by_geo_submseteq l :
  by_geo "romania" l ++ by_geo "europe" l ++ by_geo "global" l ⊆+ l.
Proof.
  induction l as [|a l IH]; [done|]. unfold by_geo in *.
  rewrite !(filter_cons _ a l).
  destruct (decide (geo a = "romania")) as [Hro|Hro];
    destruct (decide (geo a = "europe")) as [Heu|Heu];
    destruct (decide (geo a = "global")) as [Hgl|Hgl];
    try congruence.
  - rewrite <-app_comm_cons. by apply submseteq_skip.
  - rewrite <-app_comm_cons, <-Permutation_middle. by apply submseteq_skip.
  - rewrite app_assoc, <-Permutation_middle, <-app_assoc.
    by apply submseteq_skip.
  - by apply submseteq_cons.
Qed.

Lemma bucket_geo g articles : Forall (λ a, geo a = g) (bucket g articles).
Proof. apply Forall_forall. by intros a [? _]%elem_of_bucket. Qed.

Lemma by_geo_same g l : Forall (λ a, geo a = g) l → by_geo g l = l.
Proof. apply filter_all. Qed.

Lemma by_geo_other g g' l :
  g ≠ g' → Forall (λ a, geo a = g') l → by_geo g l = [].
Proof.
  intros Hne Hl. apply filter_none. eapply Forall_impl; [exact Hl|].
  simpl. congruence.
Qed.

(** The first picks of a bucket and its unselected articles are disjoint
    parts of the bucket. *)
Lemma picks_unselected_submseteq g articles :
  g ∈ GEOS →
  take 3 (bucket g articles) ++ unselected g articles ⊆+ bucket g articles.
Proof.
  intros Hg. unfold unselected.
  rewrite <-(take_drop 3 (bucket g articles)) at 2 3.
  rewrite filter_app, filter_none.
  - apply submseteq_app; [done|]. apply sublist_submseteq, sublist_filter.
  - apply Forall_forall. intros a Ha Hnot. apply Hnot. unfold used_ids.
    rewrite elem_of_list_to_set. apply list_elem_of_fmap_2.
    by apply (first_picks_elem_of _ g).
Qed.

Lemma extra_submseteq articles :
  extra articles
  ⊆+ unselected "europe" articles ++ unselected "global" articles
     ++ unselected "romania" articles.
Proof.
  rewrite extra_unfold, overflow_ordered_unselected.
  case_decide; [apply sublist_submseteq, sublist_take|apply submseteq_nil_l].
Qed.

Lemma selection_submseteq articles : balanced_selection articles ⊆+ articles.
Proof.
  rewrite balanced_selection_perm.
  trans (bucket "romania" articles ++ bucket "europe" articles
         ++ bucket "global" articles).
  2: { unfold bucket. rewrite !sort_perm. apply by_geo_submseteq. }
  trans ((take 3 (bucket "romania" articles) ++ unselected "romania" articles)
         ++ (take 3 (bucket "europe" articles) ++ unselected "europe" articles)
         ++ (take 3 (bucket "global" articles)
             ++ unselected "global" articles)).
  2: { repeat apply submseteq_app; apply picks_unselected_submseteq;
         auto using geos_romania, geos_europe, geos_global. }
  trans (first_picks articles
         ++ (unselected "europe" articles ++ unselected "global" articles
             ++ unselected "romania" articles)).
  { apply submseteq_app; [done|apply extra_submseteq]. }
  apply Permutation_submseteq. unfold first_picks.
  unfold SLOTS_ROMANIA, SLOTS_EUROPE, SLOTS_GLOBAL.
  generalize (unselected "romania" articles) (unselected "europe" articles)
             (unselected "global" articles)
             (take 3 (bucket "romania" articles))
             (take 3 (bucket "europe" articles))
             (take 3 (bucket "global" articles)).
  intros ur ue ug tr te tg. solve_Permutation.
Qed.

Lemma selection_geo articles :
  Forall (λ a, geo a ∈ GEOS) (balanced_selection articles).
Proof.
  rewrite balanced_selection_perm. apply Forall_app.
  split; [|apply extra_geo]. apply Forall_forall.
  intros a (g & Hg & Ha%subseteq_take)%elem_of_first_picks.
  by apply elem_of_bucket in Ha as [-> _].
Qed.

Lemma NoDup_of_submseteq {A} (l k : list A) : l ⊆+ k → NoDup k → NoDup l.
Proof.
  intros [k' ->]%submseteq_Permutation Hnd.
  by apply NoDup_app in Hnd as [? _].
Qed.

End selection_more.

(** The selection takes its articles from the input, each at most as often
    as it occurs there; all of them carry one of the three labels, so an
    article with any other [geo] is never selected; and distinct ids stay
    distinct. *)
Theorem balanced_selection_from_input (articles : list Article) :
  balanced_selection articles ⊆+ articles ∧
  Forall (λ a, geo a ∈ GEOS) (balanced_selection articles) ∧
  (NoDup (id <$> articles) → NoDup (id <$> balanced_selection articles)).
Proof.
  split_and!.
  - apply selection_submseteq.
  - apply selection_geo.
  - apply NoDup_of_submseteq. apply fmap_submseteq, selection_submseteq.
Qed.

(** The three best articles of every geography are always selected. *)
Theorem balanced_selection_best_three (articles : list Article) (g : string) :
  g ∈ GEOS →
  take 3 (bucket g articles) ⊆+ balanced_selection articles.
Proof.
  intros Hg. rewrite balanced_selection_perm.
  apply submseteq_app_r. exists (take 3 (bucket g articles)), [].
  split_and!; [by rewrite app_nil_r| |apply submseteq_nil_l].
  unfold first_picks, GEOS, SLOTS_ROMANIA, SLOTS_EUROPE, SLOTS_GLOBAL in *.
  rewrite !elem_of_cons in Hg.
  destruct Hg as [-> | [-> | [-> | Hg]]]; [..|by apply elem_of_nil in Hg].
  - by apply submseteq_inserts_r.
  - apply submseteq_inserts_l. by apply submseteq_inserts_r.
  - by do 2 apply submseteq_inserts_l.
Qed.

Lemma balanced_selection_best_three_witness :
  take 3 (bucket "europe" scenario) ⊆+ balanced_selection scenario.
Proof.
  apply balanced_selection_best_three.
  apply (bool_decide_unpack _). vm_compute. exact I.
Defined.

Section selection_order.
Implicit Types (a b : Article) (l articles ro eu gl : list Article).

Lemma round_robin_nil : round_robin [] [] [] = [].
Proof. reflexivity. Qed.

Lemma head_tail l : option_list (head l) ++ tail l = l.
Proof. by destruct l. Qed.

Lemma Forall_head (P : Article → Prop) l :
  Forall P l → Forall P (option_list (head l)).
Proof.
  destruct l; simpl; [done|]. intros [? _]%Forall_cons. by constructor.
Qed.

Lemma Forall_tail (P : Article → Prop) l : Forall P l → Forall P (tail l).
Proof. destruct l; simpl; [done|]. by intros [_ ?]%Forall_cons. Qed.

Lemma by_geo_app g l k : by_geo g (l ++ k) = by_geo g l ++ by_geo g k.
Proof. apply filter_app. Qed.

(** Filtering the round robin by geography gives back the three lists,
    each in its own order. *)
Lemma by_geo_round_robin n ro eu gl :
  length ro + length eu + length gl ≤ n →
  Forall (λ a, geo a = "romania") ro →
  Forall (λ a, geo a = "europe") eu →
  Forall (λ a, geo a = "global") gl →
  by_geo "romania" (round_robin ro eu gl) = ro ∧
  by_geo "europe" (round_robin ro eu gl) = eu ∧
  by_geo "global" (round_robin ro eu gl) = gl.
Proof.
  revert ro eu gl. induction n as [|n IH]; intros ro eu gl Hlen Hro Heu Hgl.
  { destruct ro, eu, gl; simpl in Hlen; try lia. by rewrite round_robin_nil. }
  destruct (decide (ro ++ eu ++ gl = [])) as [Hnil|Hne].
  { apply app_eq_nil in Hnil as [-> [-> ->]%app_eq_nil].
    by rewrite round_robin_nil. }
  rewrite round_robin_step by done.
  destruct (IH (tail ro) (tail eu) (tail gl)) as (IH1 & IH2 & IH3);
    [|by apply Forall_tail..|].
  { destruct ro, eu, gl; simpl in *; try done; lia. }
  rewrite !by_geo_app, IH1, IH2, IH3.
  rewrite !(by_geo_same "romania" (option_list (head ro))),
    !(by_geo_same "europe" (option_list (head eu))),
    !(by_geo_same "global" (option_list (head gl)))
    by by apply Forall_head.
  rewrite (by_geo_other "romania" "europe"), (by_geo_other "romania" "global"),
    (by_geo_other "europe" "romania"), (by_geo_other "europe" "global"),
    (by_geo_other "global" "romania"), (by_geo_other "global" "europe")
    by (done || by apply Forall_head).
  by rewrite !app_nil_l, !head_tail.
Qed.

Lemma by_geo_geo g l : Forall (λ a, geo a = g) (by_geo g l).
Proof. apply Forall_forall. by intros a [? _]%elem_of_by_geo. Qed.

(** The articles of one geography stand in the selection as they stand in
    the selected list of that geography. *)
Lemma by_geo_selection articles :
  by_geo "romania" (balanced_selection articles) = (picked articles).1.1 ∧
  by_geo "europe" (balanced_selection articles) = (picked articles).1.2 ∧
  by_geo "global" (balanced_selection articles) = (picked articles).2.
Proof.
  rewrite balanced_selection_unfold, take_ge.
  2: { rewrite interleave_is_round_robin, round_robin_perm, picked_perm.
       rewrite length_app. pose proof (length_extra_le articles). lia. }
  rewrite interleave_is_round_robin. eapply by_geo_round_robin; [done|..];
    rewrite picked_unfold; cbn [fst snd]; apply Forall_app;
    (split; [apply Forall_take, bucket_geo|apply by_geo_geo]).
Qed.

Lemma by_geo_rest_same g n articles :
  by_geo g (take n (drop 3 (bucket g articles)))
  = take n (drop 3 (bucket g articles)).
Proof. apply by_geo_same, Forall_take, Forall_drop, bucket_geo. Qed.

Lemma by_geo_rest_other g g' n articles :
  g ≠ g' → by_geo g (take n (drop 3 (bucket g' articles))) = [].
Proof.
  intros Hne. apply (by_geo_other g g'); [done|].
  apply Forall_take, Forall_drop, bucket_geo.
Qed.

(** With pairwise distinct ids, what the overflow step adds to a geography
    continues its bucket after the third article. *)
Lemma by_geo_extra articles g :
  NoDup (id <$> articles) → g ∈ GEOS →
  ∃ j, by_geo g (extra articles) = take j (drop 3 (bucket g articles)).
Proof.
  intros Hnd Hg. rewrite extra_unfold.
  case_decide; [|by exists 0; rewrite take_0].
  rewrite overflow_ordered_eq by done.
  generalize (Z.to_nat (remaining_needed articles)). intros k.
  rewrite !take_app, !by_geo_app.
  unfold GEOS in Hg. rewrite !elem_of_cons in Hg.
  destruct Hg as [-> | [-> | [-> | Hg]]]; [..|by apply elem_of_nil in Hg];
    eexists; rewrite by_geo_rest_same, !by_geo_rest_other by done;
    by rewrite ?app_nil_r.
Qed.

(** With pairwise distinct ids the selection holds of every geography the
    best [m] articles, for some [m], best first. *)
Lemma by_geo_selection_prefix articles g :
  NoDup (id <$> articles) → g ∈ GEOS →
  ∃ m, by_geo g (balanced_selection articles) = take m (bucket g articles).
Proof.
  intros Hnd Hg. destruct (by_geo_extra articles g Hnd Hg) as [j Hj].
  exists (3 + j). rewrite <-take_take_drop, <-Hj.
  destruct (by_geo_selection articles) as (Hro & Heu & Hgl).
  rewrite picked_unfold in Hro, Heu, Hgl. cbn [fst snd] in Hro, Heu, Hgl.
  unfold GEOS in Hg. rewrite !elem_of_cons in Hg.
  by destruct Hg as [-> | [-> | [-> | Hg%elem_of_nil]]].
Qed.

Lemma round_robin_sublists n ro eu gl :
  length ro + length eu + length gl ≤ n →
  ro `sublist_of` round_robin ro eu gl ∧
  eu `sublist_of` round_robin ro eu gl ∧
  gl `sublist_of` round_robin ro eu gl.
Proof.
  revert ro eu gl. induction n as [|n IH]; intros ro eu gl Hlen.
  { destruct ro, eu, gl; simpl in Hlen; try lia. by rewrite round_robin_nil. }
  destruct (decide (ro ++ eu ++ gl = [])) as [Hnil|Hne].
  { apply app_eq_nil in Hnil as [-> [-> ->]%app_eq_nil].
    by rewrite round_robin_nil. }
  rewrite round_robin_step by done.
  destruct (IH (tail ro) (tail eu) (tail gl)) as (IH1 & IH2 & IH3).
  { destruct ro, eu, gl; simpl in *; try done; lia. }
  split_and!.
  - rewrite <-(head_tail ro) at 1.
    apply sublist_app; [done|]. by do 2 apply sublist_inserts_l.
  - rewrite <-(head_tail eu) at 1. apply sublist_inserts_l.
    apply sublist_app; [done|]. by apply sublist_inserts_l.
  - rewrite <-(head_tail gl) at 1. do 2 apply sublist_inserts_l.
    by apply sublist_app.
Qed.

Lemma length_selection articles :
  NoDup (id <$> articles) → Forall (λ a, geo a ∈ GEOS) articles →
  length (balanced_selection articles) = 9 `min` length articles.
Proof.
  intros Hnd Hgeo. pose proof (length_extra_le articles) as Hle.
  rewrite balanced_selection_perm, length_app.
  rewrite (by_geo_partition articles Hgeo) at 3.
  rewrite !length_app, <-!length_bucket.
  rewrite extra_unfold, remaining_needed_eq, overflow_ordered_eq by done.
  rewrite length_first_picks in *.
  case_decide; [rewrite length_take, !length_app, !length_drop|cbn [length]];
    lia.
Qed.

End selection_order.

(** The interleaving emits every selected article exactly once and keeps
    the order of each of the three lists. *)
Theorem interleave_emits_once (ro eu gl : list Article) :
  interleave ro eu gl ≡ₚ ro ++ eu ++ gl ∧
  ro `sublist_of` interleave ro eu gl ∧
  eu `sublist_of` interleave ro eu gl ∧
  gl `sublist_of` interleave ro eu gl.
Proof.
  rewrite interleave_is_round_robin. split; [apply round_robin_perm|].
  by eapply round_robin_sublists.
Qed.

(** A bucket holds the articles of its geography, best score first, and
    articles of equal score in the order of the input. *)
Theorem bucket_sorted_stable (g : string) (articles : list Article) :
  bucket g articles ≡ₚ filter (λ a, geo a = g) articles ∧
  StronglySorted score_ge (bucket g articles) ∧
  (∀ s, filter (λ a, score a = s) (bucket g articles)
        = filter (λ a, score a = s) (filter (λ a, geo a = g) articles)).
Proof.
  unfold bucket, by_geo. split_and!.
  - apply sort_perm.
  - apply sort_sorted.
  - intros s. apply sort_stable.
Qed.

(** When at most nine articles are on offer, with pairwise distinct ids and
    each with one of the three labels, all of them are selected. *)
Theorem balanced_selection_takes_all (articles : list Article) :
  NoDup (id <$> articles) →
  Forall (λ a, geo a ∈ GEOS) articles →
  length articles ≤ 9 →
  balanced_selection articles ≡ₚ articles.
Proof.
  intros Hnd Hgeo Hlen. apply submseteq_length_Permutation.
  - apply selection_submseteq.
  - rewrite length_selection by done. lia.
Qed.

Lemma balanced_selection_takes_all_witness :
  balanced_selection one_four_four ≡ₚ one_four_four.
Proof.
  apply balanced_selection_takes_all.
  - apply (bool_decide_unpack _). vm_compute. exact I.
  - apply (bool_decide_unpack _). vm_compute. exact I.
  - vm_compute. lia.
Defined.

(** With pairwise distinct ids, the selection restricted to one geography
    is a front part of that geography's bucket, in bucket order: the best
    [m] articles, best first.  So no article left out has a higher score
    than a selected article of its geography. *)
Theorem balanced_selection_best_of_geography (articles : list Article)
    (g : string) :
  NoDup (id <$> articles) →
  g ∈ GEOS →
  (∃ m, filter (λ a, geo a = g) (balanced_selection articles)
        = take m (bucket g articles)) ∧
  (∀ x y,
     x ∈ balanced_selection articles → geo x = g →
     y ∈ articles → geo y = g → y ∉ balanced_selection articles →
     (score y ≤ score x)%Z).
Proof.
  intros Hnd Hg.
  destruct (by_geo_selection_prefix articles g Hnd Hg) as [m Hm].
  split; [by exists m|].
  intros x y Hx Hgx Hy Hgy Hny.
  assert (x ∈ take m (bucket g articles)) as Hxm
    by (rewrite <-Hm; by apply elem_of_by_geo).
  assert (y ∈ drop m (bucket g articles)) as Hym.
  { assert (y ∈ bucket g articles) as Hyb by by apply elem_of_bucket.
    rewrite <-(take_drop m (bucket g articles)) in Hyb.
    apply elem_of_app in Hyb as [Hyb|Hyb]; [|done].
    rewrite <-Hm in Hyb. by apply elem_of_by_geo in Hyb as [_ ?]. }
  pose proof (sort_sorted (by_geo g articles)) as Hsorted.
  fold (bucket g articles) in Hsorted.
  rewrite <-(take_drop m (bucket g articles)) in Hsorted.
  apply (StronglySorted_app_1_elem_of _ _ _ x y Hsorted Hxm Hym).
Qed.

Lemma balanced_selection_best_of_geography_witness :
  (∃ m, filter (λ a, geo a = "global") (balanced_selection scenario)
        = take m (bucket "global" scenario)) ∧
  (∀ x y,
     x ∈ balanced_selection scenario → geo x = "global" →
     y ∈ scenario → geo y = "global" → y ∉ balanced_selection scenario →
     (score y ≤ score x)%Z).
Proof.
  apply balanced_selection_best_of_geography.
  - apply (bool_decide_unpack _). vm_compute. exact I.
  - apply (bool_decide_unpack _). vm_compute. exact I.
Defined.

(** ** Entry normaliser *)

Section normaliser_more.
Variable soup_text : string → option string.
Variable strftime : datetime → string.
Variable md5_hex : string → string.

(** An accepted entry and the article made of it. *)
Lemma parse_entry_inv now entry cfg a :
  parse_entry soup_text strftime md5_hex now entry cfg = Some a →
  ∃ t u s,
    entry_get (Entry.title entry) = PStr t ∧
    15 ≤ String.length (clean_text_str t) ∧
    entry_get (Entry.link entry) = PStr u ∧ u ≠ "" ∧
    clean_html soup_text (summary_raw entry) = Ok s ∧
    from_option (λ d, bool_decide (MAX_AGE_DAYS < delta_days now d)%Z)
                false (resolve_date entry) = false ∧
    a = {| id := Str.take 12 (md5_hex u);
           title := clean_text_str t;
           summary := (if bool_decide (truncate_summary s = "")
                       then clean_text_str t else truncate_summary s);
           url := u;
           source := Feed.source cfg;
           feed_geo := Feed.geo cfg;
           geo := "";
           date := from_option strftime "" (resolve_date entry);
           date_obj := from_option IsoDate NoDate (resolve_date entry);
           score := 0 |}.
Proof.
  unfold parse_entry, parse_entry_body.
  destruct (entry_get (Entry.title entry)) as [t|b] eqn:Ht;
    cbn [clean_text exn_bind]; [|done].
  destruct (_ || _) eqn:Hshort; [done|].
  apply orb_false_iff in Hshort as [_ Hlen%bool_decide_eq_false].
  destruct (entry_get (Entry.link entry)) as [u|b] eqn:Hu; cbn [truthy].
  - case_bool_decide as Hue; cbn [negb]; [done|].
    destruct (clean_html soup_text (summary_raw entry)) as [s|] eqn:Hs;
      cbn [exn_bind]; [|done].
    destruct (from_option _ false (resolve_date entry)) eqn:Hold; [done|].
    intros [= <-]. exists t, u, s. split_and!; try done. lia.
  - destruct b; cbn [negb]; [|done].
    destruct (clean_html soup_text (summary_raw entry)); cbn [exn_bind];
      [|done].
    by destruct (from_option _ _ _).
Qed.

Lemma length_str_take_min n s :
  String.length (Str.take n s) = n `min` String.length s.
Proof.
  revert s. induction n as [|n IH]; intros [|c s]; simpl; try done.
  by rewrite IH.
Qed.

(** Every article the normaliser returns has a title of at least 15
    characters, the link of the entry as its non-empty url, a non-empty
    summary, the source and geography hint of its feed, an id of at most 12
    characters that depends on the link alone, no geography yet and score
    0. *)
Theorem parse_entry_article (now : datetime) (entry : Entry.t)
    (cfg : Feed.config) (a : Article) :
  parse_entry soup_text strftime md5_hex now entry cfg = Some a →
  15 ≤ String.length (title a) ∧
  entry_get (Entry.link entry) = PStr (url a) ∧ url a ≠ "" ∧
  summary a ≠ "" ∧
  source a = Feed.source cfg ∧ feed_geo a = Feed.geo cfg ∧
  id a = Str.take 12 (md5_hex (url a)) ∧ String.length (id a) ≤ 12 ∧
  geo a = "" ∧ score a = 0%Z.
Proof.
  intros (t & u & s & Ht & Hlen & Hu & Hne & Hs & Hold & ->)%parse_entry_inv.
  cbn [title url summary source feed_geo id geo score].
  split_and!; try done.
  - case_bool_decide; [|done]. intros Hnil. rewrite Hnil in Hlen.
    simpl in Hlen. lia.
  - rewrite length_str_take_min. lia.
Qed.

Lemma date_of_field_bind f : date_of_field f = f ≫= datetime_of_tuple.
Proof. by destruct f as [[|??]|]. Qed.

(** The timestamp of an accepted article is the published date when that
    field holds a valid date, whatever the updated field holds; the updated
    date when the published field is missing, empty or invalid; and absent,
    with an empty date string, when neither field holds a valid date.  A
    timestamp that is kept is at most 14 whole days old. *)
Theorem parse_entry_date (now : datetime) (entry : Entry.t)
    (cfg : Feed.config) (a : Article) :
  parse_entry soup_text strftime md5_hex now entry cfg = Some a →
  let published := Entry.published_parsed entry ≫= datetime_of_tuple in
  let updated := Entry.updated_parsed entry ≫= datetime_of_tuple in
  (∀ d, published = Some d →
        date_obj a = IsoDate d ∧ date a = strftime d) ∧
  (∀ d, published = None → updated = Some d →
        date_obj a = IsoDate d ∧ date a = strftime d) ∧
  (published = None → updated = None →
   date_obj a = NoDate ∧ date a = "") ∧
  (∀ d, date_obj a = IsoDate d → (delta_days now d ≤ 14)%Z) ∧
  date_obj a ≠ BadDate.
Proof.
  intros (t & u & s & Ht & Hlen & Hu & Hne & Hs & Hold & ->)%parse_entry_inv.
  cbn [date_obj date]. unfold resolve_date in *.
  rewrite !date_of_field_bind in *. cbv zeta.
  destruct (Entry.published_parsed entry ≫= datetime_of_tuple) as [dp|];
    [|destruct (Entry.updated_parsed entry ≫= datetime_of_tuple) as [du|]];
    cbn [from_option] in *.
  - split_and!; try done.
    + by intros d [= <-].
    + intros d [= <-]. apply bool_decide_eq_false in Hold.
      unfold MAX_AGE_DAYS in Hold. lia.
  - split_and!; try done.
    + by intros d _ [= <-].
    + intros d [= <-]. apply bool_decide_eq_false in Hold.
      unfold MAX_AGE_DAYS in Hold. lia.
  - split_and!; done.
Qed.

(** A summary that is present decides alone: the description is looked at
    only when the entry has no summary at all, and then it takes the place
    of the summary. *)
Theorem parse_entry_summary_source (now : datetime) (entry : Entry.t)
    (cfg : Feed.config) :
  (∀ v d, Entry.summary entry = Some v →
     parse_entry soup_text strftime md5_hex now (with_description d entry) cfg
     = parse_entry soup_text strftime md5_hex now entry cfg) ∧
  (Entry.summary entry = None →
   parse_entry soup_text strftime md5_hex now entry cfg
   = parse_entry soup_text strftime md5_hex now
       (with_summary (Entry.description entry) entry) cfg).
Proof.
  split.
  - intros v d Hv. unfold parse_entry, parse_entry_body, summary_raw.
    unfold resolve_date. cbn [with_description Entry.title Entry.link
      Entry.summary Entry.description Entry.published_parsed
      Entry.updated_parsed]. by rewrite Hv.
  - intros Hnone. unfold parse_entry, parse_entry_body, summary_raw.
    unfold resolve_date. cbn [with_summary Entry.title Entry.link
      Entry.summary Entry.description Entry.published_parsed
      Entry.updated_parsed]. rewrite Hnone.
    by destruct (Entry.description entry).
Qed.

(** A cleaned summary of 1 to 220 characters is used as it is. *)
Theorem parse_entry_summary_verbatim (now : datetime) (entry : Entry.t)
    (cfg : Feed.config) (a : Article) (s : string) :
  parse_entry soup_text strftime md5_hex now entry cfg = Some a →
  clean_html soup_text (summary_raw entry) = Ok s →
  s ≠ "" → String.length s ≤ 220 →
  summary a = s.
Proof.
  intros (t & u & s' & _ & _ & _ & _ & Hs' & _ & ->)%parse_entry_inv.
  intros Hs Hne Hlen.
  assert (s' = s) as -> by congruence. cbn [summary].
  unfold truncate_summary. rewrite (bool_decide_eq_false_2 (220 < _)) by lia.
  by rewrite bool_decide_eq_false_2.
Qed.

End normaliser_more.

Lemma parse_entry_article_witness :
  ∃ a,
    parse_entry plain_soup no_strftime no_md5 now0 undated_entry feed0
    = Some a ∧
    15 ≤ String.length (title a) ∧
    entry_get (Entry.link undated_entry) = PStr (url a) ∧ url a ≠ "" ∧
    summary a ≠ "" ∧
    source a = Feed.source feed0 ∧ feed_geo a = Feed.geo feed0 ∧
    id a = Str.take 12 (no_md5 (url a)) ∧ String.length (id a) ≤ 12 ∧
    geo a = "" ∧ score a = 0%Z.
Proof.
  eexists. split; [vm_compute; reflexivity|].
  apply (parse_entry_article plain_soup no_strftime no_md5 now0 undated_entry
                             feed0).
  vm_compute. reflexivity.
Defined.

Lemma parse_entry_date_witness :
  ∃ a,
    parse_entry plain_soup no_strftime no_md5 now0 two_dates_entry feed0
    = Some a ∧
    date_obj a = IsoDate {| year := 2024; month := 3; day := 10; hour := 8;
                            minute := 0; second := 0; microsecond := 0 |}.
Proof.
  eexists. split; [vm_compute; reflexivity|].
  edestruct (parse_entry_date plain_soup no_strftime no_md5 now0
               two_dates_entry feed0) as (Hpublished & _);
    [vm_compute; reflexivity|].
  edestruct Hpublished as [Hdate _]; [vm_compute; reflexivity|exact Hdate].
Defined.

Lemma parse_entry_summary_verbatim_witness :
  ∃ a,
    parse_entry plain_soup no_strftime no_md5 now0 undated_entry feed0
    = Some a ∧ summary a = "Occupancy is up.".
Proof.
  eexists. split; [vm_compute; reflexivity|].
  apply (parse_entry_summary_verbatim plain_soup no_strftime no_md5 now0
           undated_entry feed0).
  - vm_compute. reflexivity.
  - vm_compute. reflexivity.
  - discriminate.
  - vm_compute. lia.
Defined.


(** ** Feed retrieval *)

Lemma length_omap_le {A B} (f : A → option B) (l : list A) :
  length (omap f l) ≤ length l.
Proof.
  induction l as [|x l IH]; [done|]. csimpl. destruct (f x); simpl; lia.
Qed.

Section retrieval_facts.
Variable soup_text : string → option string.
Variable strftime : datetime → string.
Variable md5_hex : string → string.

Lemma foldl_fetch_step now_at cfg articles (l : list (nat * Entry.t)) :
  foldl (fetch_step soup_text strftime md5_hex now_at cfg) articles l
  = articles
    ++ omap (λ ie, parse_entry soup_text strftime md5_hex (now_at ie.1) ie.2
                               cfg) l.
Proof.
  revert articles. induction l as [|ie l IH]; intros articles; csimpl.
  - by rewrite app_nil_r.
  - rewrite IH. unfold fetch_step.
    destruct (parse_entry _ _ _ _ _ _); [by rewrite <-app_assoc|done].
Qed.

(** The loop over the entries collects the accepted ones, in order. *)
Lemma fetch_feed_Ok now_at cfg entries :
  fetch_feed soup_text strftime md5_hex now_at cfg (Ok entries)
  = omap (λ ie, parse_entry soup_text strftime md5_hex (now_at ie.1) ie.2 cfg)
         (imap pair (take 25 entries)).
Proof. unfold fetch_feed. by rewrite foldl_fetch_step. Qed.

Lemma elem_of_fetch_feed now_at cfg response a :
  a ∈ fetch_feed soup_text strftime md5_hex now_at cfg response →
  ∃ entries j entry,
    response = Ok entries ∧ take 25 entries !! j = Some entry ∧
    parse_entry soup_text strftime md5_hex (now_at j) entry cfg = Some a.
Proof.
  destruct response as [entries|]; [|by intros ?%elem_of_nil].
  rewrite fetch_feed_Ok, list_elem_of_omap.
  intros ([j entry] & Hin & Ha).
  apply elem_of_lookup_imap in Hin as (j' & entry' & [= -> ->] & Hj).
  by exists entries, j', entry'.
Qed.

(** A feed yields at most 25 articles: the accepted ones among its first
    25 entries, in the order of the entries, and none when the request or
    the parse of its body raises.  Each carries the name and the geography
    hint of the feed. *)
Theorem fetch_feed_articles (now_at : nat → datetime) (cfg : Feed.config)
    (response : exn (list Entry.t)) :
  length (fetch_feed soup_text strftime md5_hex now_at cfg response) ≤ 25 ∧
  fetch_feed soup_text strftime md5_hex now_at cfg Raise = [] ∧
  (∀ entries,
     fetch_feed soup_text strftime md5_hex now_at cfg (Ok entries)
     = fetch_feed soup_text strftime md5_hex now_at cfg
                  (Ok (take 25 entries)) ∧
     fetch_feed soup_text strftime md5_hex now_at cfg (Ok entries)
     = omap (λ ie, parse_entry soup_text strftime md5_hex (now_at ie.1) ie.2
                               cfg)
            (imap pair (take 25 entries))) ∧
  Forall (λ a, source a = Feed.source cfg ∧ feed_geo a = Feed.geo cfg)
         (fetch_feed soup_text strftime md5_hex now_at cfg response).
Proof.
  split_and!.
  - destruct response as [entries|]; [|simpl; lia].
    rewrite fetch_feed_Ok.
    etrans; [apply length_omap_le|]. rewrite length_imap, length_take. lia.
  - done.
  - intros entries. split; [|apply fetch_feed_Ok].
    by rewrite !fetch_feed_Ok, take_take.
  - apply Forall_forall.
    intros a (entries & j & entry & _ & _ & Ha)%elem_of_fetch_feed.
    apply parse_entry_inv in Ha as (t & u & s & _ & _ & _ & _ & _ & _ & ->).
    done.
Qed.

End retrieval_facts.

Lemma fetch_feed_articles_witness :
  length (fetch_feed plain_soup no_strftime no_md5 (λ _, now0) feed0
                     (Ok thirty_entries)) = 25.
Proof.
  pose proof (fetch_feed_articles plain_soup no_strftime no_md5 (λ _, now0)
                feed0 (Ok thirty_entries)) as (Hle & _ & Hcut & _).
  destruct (Hcut thirty_entries) as [-> _]. vm_compute. reflexivity.
Defined.

(** ** Output formatter *)

Lemma foldl_snoc_fmap {A B} (f : A → B) (acc : list B) (l : list A) :
  foldl (λ output a, output ++ [f a]) acc l = acc ++ (f <$> l).
Proof.
  revert acc. induction l as [|a l IH]; intros acc; csimpl.
  - by rewrite app_nil_r.
  - by rewrite IH, <-app_assoc.
Qed.

Lemma format_output_fmap articles :
  format_output articles = format_article <$> articles.
Proof. unfold format_output. by rewrite foldl_snoc_fmap. Qed.

Lemma category_of_geo a :
  (geo a = "romania" → Item.category (format_article a) = "Romania") ∧
  (geo a = "europe" → Item.category (format_article a) = "European Tourism") ∧
  (geo a = "global" → Item.category (format_article a) = "Global Travel") ∧
  (geo a ∉ GEOS → Item.category (format_article a) = "Travel News").
Proof.
  unfold format_article. cbn [Item.category]. split_and!.
  - by intros ->.
  - by intros ->.
  - by intros ->.
  - unfold GEOS, geo_labels. rewrite !not_elem_of_cons. intros (? & ? & ? & _).
    by rewrite !lookup_insert_ne, lookup_singleton_ne by done.
Qed.

(** The formatter returns one record per article, in the same order, with
    the title, summary, url, source and date of the article; the category is
    Romania, European Tourism or Global Travel for the three labels and
    Travel News for any other [geo]. *)
Theorem format_output_items (articles : list Article) :
  length (format_output articles) = length articles ∧
  (∀ i a, articles !! i = Some a →
     ∃ item, format_output articles !! i = Some item ∧
       Item.title item = title a ∧ Item.summary item = summary a ∧
       Item.url item = url a ∧ Item.source item = source a ∧
       Item.date item = date a ∧
       (geo a = "romania" → Item.category item = "Romania") ∧
       (geo a = "europe" → Item.category item = "European Tourism") ∧
       (geo a = "global" → Item.category item = "Global Travel") ∧
       (geo a ∉ GEOS → Item.category item = "Travel News")).
Proof.
  rewrite format_output_fmap. split; [apply length_fmap|].
  intros i a Hi. exists (format_article a).
  rewrite list_lookup_fmap, Hi. split; [done|].
  destruct (category_of_geo a) as (? & ? & ? & ?). by split_and!.
Qed.

Lemma format_output_items_witness :
  ∃ item, format_output [both_keywords] !! 0 = Some item ∧
          Item.category item = "Travel News".
Proof.
  destruct (format_output_items [both_keywords]) as [_ H].
  destruct (H 0 both_keywords eq_refl)
    as (item & Hitem & _ & _ & _ & _ & _ & _ & _ & _ & Hother).
  exists item. split; [exact Hitem|]. apply Hother.
  intros Hin. apply (bool_decide_pack _) in Hin. vm_compute in Hin.
  exact Hin.
Defined.

(** ** Writing the feed *)

(** After the write the output file holds the new content, whether or not
    the backup succeeded.  A previous output file becomes the backup when
    the rename succeeds; otherwise the backup file is left as it was.  No
    other file is touched, and after two runs with a successful rename the
    backup holds the content of the first. *)
Theorem write_feed_files (rename_raises : bool) (content : string)
    (files : gmap string string) :
  write_feed rename_raises content files !! OUTPUT_FILE = Some content ∧
  (∀ previous,
     files !! OUTPUT_FILE = Some previous → rename_raises = false →
     write_feed rename_raises content files !! BACKUP_FILE = Some previous) ∧
  (files !! OUTPUT_FILE = None ∨ rename_raises = true →
   write_feed rename_raises content files !! BACKUP_FILE
   = files !! BACKUP_FILE) ∧
  (∀ name, name ≠ OUTPUT_FILE → name ≠ BACKUP_FILE →
     write_feed rename_raises content files !! name = files !! name) ∧
  (∀ content',
     write_feed false content' (write_feed rename_raises content files)
       !! BACKUP_FILE
     = Some content).
Proof.
  assert (OUTPUT_FILE ≠ BACKUP_FILE) as Hne by done.
  assert (∀ r c (fs : gmap string string),
            write_feed r c fs !! OUTPUT_FILE = Some c) as Hout.
  { intros r c fs. unfold write_feed. apply lookup_insert_eq. }
  split_and!.
  - apply Hout.
  - intros previous Hprev ->. unfold write_feed. rewrite Hprev.
    rewrite lookup_insert_ne by done. apply lookup_insert_eq.
  - intros Hcase. unfold write_feed. rewrite lookup_insert_ne by done.
    destruct (files !! OUTPUT_FILE) as [previous|] eqn:Hprev; [|done].
    destruct Hcase as [[=]| ->]. done.
  - intros name Hno Hnb. unfold write_feed. rewrite lookup_insert_ne by done.
    destruct (files !! OUTPUT_FILE); [|done].
    destruct rename_raises; [done|].
    rewrite lookup_insert_ne by done. by rewrite lookup_delete_ne.
  - intros content'. unfold write_feed at 1. rewrite Hout.
    rewrite lookup_insert_ne by done. apply lookup_insert_eq.
Qed.

(** ** The run *)

Lemma length_selection_le articles : length (balanced_selection articles) ≤ 9.
Proof.
  rewrite balanced_selection_perm, length_app.
  pose proof (length_extra_le articles). lia.
Qed.

Lemma title_key_dedup_key a : title_key (title a) = dedup_key a.
Proof. reflexivity. Qed.

Lemma category_in_categories a :
  geo a ∈ GEOS → Item.category (format_article a) ∈ CATEGORIES.
Proof.
  destruct (category_of_geo a) as (Hro & Heu & Hgl & _).
  unfold GEOS, CATEGORIES. rewrite !elem_of_cons.
  intros [Hg|[Hg|[Hg|Hg]]]; [| | |by apply elem_of_nil in Hg].
  - rewrite (Hro Hg). tauto.
  - rewrite (Heu Hg). tauto.
  - rewrite (Hgl Hg). tauto.
Qed.

Section run_facts.
Variable soup_text : string → option string.
Variable strftime : datetime → string.
Variable md5_hex : string → string.
Variable clock_parse : nat → nat → datetime.
Variable clock_score : nat → datetime.

Local Abbreviation fetch i feed responses :=
  (fetch_feed soup_text strftime md5_hex (clock_parse i%nat) feed
              (responses i%nat)).
Local Abbreviation collected responses feeds :=
  (collect soup_text strftime md5_hex clock_parse responses feeds).
Local Abbreviation run responses :=
  (generate_feed soup_text strftime md5_hex clock_parse clock_score responses).

Lemma foldl_collect_step responses acc (l : list (nat * Feed.config)) :
  foldl (collect_step soup_text strftime md5_hex clock_parse responses) acc l
  = acc ++ (l ≫= λ ife, fetch ife.1 ife.2 responses).
Proof.
  revert acc. induction l as [|ife l IH]; intros acc; csimpl.
  - by rewrite app_nil_r.
  - rewrite IH. unfold collect_step. by rewrite <-app_assoc.
Qed.

Lemma collect_bind responses feeds :
  collected responses feeds
  = imap pair feeds ≫= λ ife, fetch ife.1 ife.2 responses.
Proof. unfold collect. by rewrite foldl_collect_step. Qed.

Lemma elem_of_collect responses feeds a :
  a ∈ collected responses feeds →
  ∃ i feed, feeds !! i = Some feed ∧ a ∈ fetch i feed responses.
Proof.
  rewrite collect_bind, list_elem_of_bind. intros ([i feed] & Ha & Hin).
  apply elem_of_lookup_imap in Hin as (i' & feed' & [= -> ->] & Hi).
  by exists i', feed'.
Qed.

(** Feeds whose responses yield the same articles are collected alike. *)
Lemma collect_ext responses responses' feeds :
  (∀ i feed, feeds !! i = Some feed →
     fetch i feed responses = fetch i feed responses') →
  collected responses feeds = collected responses' feeds.
Proof.
  intros Hext. rewrite !collect_bind. apply Forall_bind_ext, Forall_forall.
  intros [i feed] Hin.
  apply elem_of_lookup_imap in Hin as (i' & feed' & [= -> ->] & Hi).
  by apply Hext.
Qed.

(** A selected article is a collected article, classified and scored. *)
Lemma elem_of_select_for_feed l a' :
  a' ∈ select_for_feed clock_score l →
  ∃ k a, l !! k = Some a
         ∧ a' = score_article (clock_score k) (classify_geography a).
Proof.
  unfold select_for_feed. intros Ha.
  eapply elem_of_submseteq in Ha; [|apply selection_submseteq].
  rewrite deduplicate_dedup_from in Ha.
  eapply elem_of_submseteq in Ha;
    [|apply sublist_submseteq, dedup_from_sublist].
  apply elem_of_lookup_imap in Ha as (k & b & -> & Hk).
  apply list_lookup_fmap_Some in Hk as (a & -> & Hk). by exists k, a.
Qed.

(** The published feed has at most nine records; each is filed under
    Romania, European Tourism or Global Travel, never under the fallback
    label; and no two of its titles have the same deduplication key. *)
Theorem generate_feed_shape (responses : nat → exn (list Entry.t)) :
  length (run responses) ≤ 9 ∧
  Forall (λ item, Item.category item ∈ CATEGORIES) (run responses) ∧
  NoDup ((λ item, title_key (Item.title item)) <$> run responses).
Proof.
  unfold generate_feed, select_for_feed. rewrite format_output_fmap.
  split_and!.
  - rewrite length_fmap. apply length_selection_le.
  - apply Forall_fmap. eapply Forall_impl; [apply selection_geo|].
    intros a. apply category_in_categories.
  - rewrite <-list_fmap_compose.
    eapply NoDup_of_submseteq; [apply fmap_submseteq, selection_submseteq|].
    rewrite deduplicate_dedup_from. exact (dedup_from_nodup _ _).
Qed.

Lemma prepared_fields now a :
  title (score_article now (classify_geography a)) = title a ∧
  summary (score_article now (classify_geography a)) = summary a ∧
  url (score_article now (classify_geography a)) = url a ∧
  source (score_article now (classify_geography a)) = source a ∧
  date (score_article now (classify_geography a)) = date a.
Proof.
  by destruct (classify_geography_cases a) as [-> | [-> | ->]].
Qed.

Lemma accepted_fields now entry cfg a :
  parse_entry soup_text strftime md5_hex now entry cfg = Some a →
  15 ≤ String.length (title a) ∧ url a ≠ "" ∧ summary a ≠ "" ∧
  source a = Feed.source cfg.
Proof.
  intros (t & u & s & _ & Hlen & _ & Hu & _ & _ & ->)%parse_entry_inv.
  cbn [title url summary source]. split_and!; try done.
  case_bool_decide; [|done]. intros Hnil. rewrite Hnil in Hlen.
  simpl in Hlen. lia.
Qed.

(** Every record of the published feed stems from an accepted entry of a
    configured feed: its title has at least 15 characters, its url and its
    summary are not empty, and its source is the name of one of the
    feeds. *)
Theorem generate_feed_provenance (responses : nat → exn (list Entry.t)) :
  Forall (λ item,
            15 ≤ String.length (Item.title item) ∧
            Item.url item ≠ "" ∧ Item.summary item ≠ "" ∧
            ∃ feed, feed ∈ ALL_FEEDS ∧ Item.source item = Feed.source feed)
         (run responses).
Proof.
  unfold generate_feed. rewrite format_output_fmap.
  apply Forall_fmap, Forall_forall. intros a' Ha'.
  apply elem_of_select_for_feed in Ha' as (k & a & Hk & ->).
  apply list_elem_of_lookup_2, elem_of_collect in Hk as (i & feed & Hi & Ha).
  apply elem_of_fetch_feed in Ha as (entries & j & entry & _ & _ & Ha).
  apply accepted_fields in Ha as (Htitle & Hurl & Hsummary & Hsource).
  destruct (prepared_fields (clock_score k) a) as (Ht & Hs & Hu & Hsrc & _).
  unfold compose, format_article.
  cbn [Item.title Item.url Item.summary Item.source].
  rewrite Ht, Hs, Hu, Hsrc. split_and!; try done.
  exists feed. split; [by eapply list_elem_of_lookup_2|done].
Qed.

(** A feed whose request fails counts as a feed without entries, and does
    not disturb the others; when every request fails the published feed is
    empty. *)
Theorem generate_feed_failures (responses : nat → exn (list Entry.t)) :
  run responses = run (λ i, or_empty (responses i)) ∧
  ((∀ i, i < length ALL_FEEDS → responses i = Raise) → run responses = []).
Proof.
  assert (∀ l, l = [] →
            format_output (select_for_feed clock_score l) = []) as Hnil
    by (by intros l ->).
  split.
  - unfold generate_feed. do 2 f_equal. apply collect_ext.
    intros i feed _. by destruct (responses i).
  - intros Hfail. apply Hnil.
    destruct (collected responses ALL_FEEDS) as [|a l] eqn:Hl; [done|].
    assert (a ∈ collected responses ALL_FEEDS) as Ha by (rewrite Hl; left).
    rewrite collect_bind in Ha.
    apply list_elem_of_bind in Ha as ([i feed] & Ha & Hin).
    apply elem_of_lookup_imap in Hin as (i' & feed' & [= -> ->] & Hi).
    apply lookup_lt_Some in Hi. cbn [fst snd] in Ha.
    rewrite (Hfail i' Hi) in Ha. by apply elem_of_nil in Ha.
Qed.

End run_facts.

(** ** Text cleaning *)

Lemma str_take_drop n s : Str.take n s +:+ Str.drop n s = s.
Proof.
  revert s. induction n as [|n IH]; intros [|c s]; try done.
  cbn [Str.take Str.drop]. by rewrite StrFacts.app_cons, IH.
Qed.

Lemma str_drop_app p t : Str.drop (String.length p) (p +:+ t) = t.
Proof. induction p as [|c p IH]; [by destruct t|done]. Qed.

Lemma ends_with_spec t s :
  Str.drop (String.length s - String.length t) s = t ↔ ∃ p, s = p +:+ t.
Proof.
  split.
  - intros Ht. exists (Str.take (String.length s - String.length t) s).
    rewrite <-(str_take_drop (String.length s - String.length t) s) at 1.
    by rewrite Ht.
  - intros [p ->]. rewrite StrFacts.length_app.
    replace (String.length p + String.length t - String.length t)
      with (String.length p) by lia.
    apply str_drop_app.
Qed.

Lemma spaced_collapse_ws b s : spaced b (collapse_ws b s).
Proof.
  revert b. induction s as [|c s IH]; intros b; [done|].
  cbn [collapse_ws]. destruct (is_space c) eqn:Hc.
  - destruct b; [apply IH|]. cbn [spaced].
    change (is_space " ") with true. unfold is_char.
    rewrite bool_decide_true by done. apply IH.
  - cbn [spaced]. rewrite Hc. apply IH.
Qed.

Lemma spaced_lstrip b s : spaced b s → spaced true (lstrip s).
Proof.
  revert b. induction s as [|c s IH]; intros b; [done|].
  cbn [spaced lstrip]. destruct (is_space c) eqn:Hc.
  - intros [_ Hs]%andb_True. by eapply IH.
  - intros Hs. cbn [spaced]. by rewrite Hc.
Qed.

Lemma spaced_rstrip b s : spaced b s → spaced b (rstrip s).
Proof.
  revert b. induction s as [|c s IH]; intros b; [done|].
  cbn [rstrip]. destruct (is_space c && bool_decide (rstrip s = "")); [done|].
  cbn [spaced]. destruct (is_space c).
  - intros [Hc Hs]%andb_True. apply andb_True. split; [done|by apply IH].
  - apply IH.
Qed.

Lemma ends_in_space_rstrip s : ends_in_space (rstrip s) = false.
Proof.
  induction s as [|c s IH]; [done|]. cbn [rstrip].
  destruct (is_space c) eqn:Hc; cbn [andb].
  - case_bool_decide as Hr; [done|]. cbn [ends_in_space].
    by rewrite bool_decide_false.
  - cbn [ends_in_space]. by case_bool_decide.
Qed.

Lemma normalisedb_strip b s : spaced b s → normalisedb (strip s).
Proof.
  intros Hs. unfold normalisedb, strip. rewrite ends_in_space_rstrip.
  apply andb_True. split; [|done]. by eapply spaced_rstrip, spaced_lstrip.
Qed.

Lemma spaced_prefix b p q : spaced b (p +:+ q) → spaced b p.
Proof.
  revert b. induction p as [|c p IH]; intros b; [done|].
  rewrite StrFacts.app_cons. cbn [spaced]. destruct (is_space c).
  - intros [Hc Hs]%andb_True. apply andb_True. split; [done|by apply IH].
  - apply IH.
Qed.

Lemma spaced_drop_bracket_dots b s :
  spaced b s → spaced b (drop_bracket_dots s).
Proof.
  unfold drop_bracket_dots. case_bool_decide; [|done]. intros Hs.
  apply spaced_prefix with (Str.drop (String.length s - 5) s).
  by rewrite str_take_drop.
Qed.

Lemma normalisedb_clean_text_str s : normalisedb (clean_text_str s).
Proof.
  unfold clean_text_str. eapply normalisedb_strip, spaced_drop_bracket_dots.
  pose proof (normalisedb_strip false (collapse_ws false (strip_tags false s))
                (spaced_collapse_ws _ _)) as Hs.
  apply andb_True in Hs as [Hs _]. exact Hs.
Qed.

Lemma ends_in_space_snoc p c : ends_in_space (p +:+ String c "") = is_space c.
Proof.
  induction p as [|a p IH]; [done|].
  rewrite StrFacts.app_cons. cbn [ends_in_space].
  rewrite bool_decide_false; [done|by destruct p].
Qed.

Lemma spaced_only_spaces b p c r :
  spaced b (p +:+ String c r) → is_space c → c = " "%char.
Proof.
  revert b. induction p as [|a p IH]; intros b.
  - rewrite StrFacts.app_nil_l. cbn [spaced]. destruct (is_space c); [|done].
    by intros [[Hc%bool_decide_unpack _]%andb_True _]%andb_True _.
  - rewrite StrFacts.app_cons. cbn [spaced]. destruct (is_space a).
    + intros [_ Hs]%andb_True. by eapply IH.
    + apply IH.
Qed.

Lemma spaced_not_adjacent b p c d r :
  spaced b (p +:+ String c (String d r)) → ¬ (is_space c ∧ is_space d).
Proof.
  revert b. induction p as [|a p IH]; intros b.
  - rewrite StrFacts.app_nil_l. cbn [spaced]. intros Hs [Hc Hd].
    destruct (is_space c); [|done].
    destruct (is_space d); [|done].
    apply andb_True in Hs as [_ Hs]. apply andb_True in Hs as [Hs _].
    by apply andb_True in Hs as [_ Hs].
  - rewrite StrFacts.app_cons. cbn [spaced]. destruct (is_space a).
    + intros [_ Hs]%andb_True. by eapply IH.
    + apply IH.
Qed.

Lemma spaced_intro b s :
  (b = true → ∀ c r, s = String c r → ¬ is_space c) →
  (∀ p c r, s = p +:+ String c r → is_space c → c = " "%char) →
  (∀ p c d r, s = p +:+ String c (String d r) →
              ¬ (is_space c ∧ is_space d)) →
  spaced b s.
Proof.
  revert b. induction s as [|c s IH]; intros b Hhead Honly Hadj; [done|].
  assert (∀ p c' r, s = p +:+ String c' r → is_space c' → c' = " "%char)
    as Honly'.
  { intros p c' r ->. by apply (Honly (String c p) c' r). }
  assert (∀ p c' d r, s = p +:+ String c' (String d r) →
                      ¬ (is_space c' ∧ is_space d)) as Hadj'.
  { intros p c' d r ->. by apply (Hadj (String c p) c' d r). }
  cbn [spaced]. destruct (is_space c) eqn:Hc.
  - rewrite !andb_True. split_and!.
    + apply bool_decide_pack. symmetry. apply (Honly "" c s); [done|].
      by rewrite Hc.
    + destruct b; [|done]. destruct (Hhead eq_refl c s eq_refl).
      by rewrite Hc.
    + apply IH; [|done..]. intros _ d r -> Hd.
      apply (Hadj "" c d r); [done|]. by rewrite Hc.
  - by apply IH.
Qed.

Lemma ends_in_space_intro s :
  (∀ p c, s = p +:+ String c "" → ¬ is_space c) → ends_in_space s = false.
Proof.
  induction s as [|c s IH]; intros Hlast; [done|]. cbn [ends_in_space].
  case_bool_decide as Hs.
  - subst s. specialize (Hlast "" c eq_refl). by destruct (is_space c).
  - apply IH. intros p c' ->. by apply (Hlast (String c p) c').
Qed.

(** The scan decides normalised white space. *)
Lemma normalisedb_spec s : normalisedb s ↔ normalised s.
Proof.
  unfold normalisedb, normalised. rewrite andb_True, negb_True. split.
  - intros [Hs Hend]. split_and!.
    + intros c r -> Hc. cbn [spaced] in Hs. destruct (is_space c); [|done].
      apply andb_True in Hs as [Hs _]. by apply andb_True in Hs as [_ Hs].
    + intros p c -> Hc. by rewrite ends_in_space_snoc in Hend.
    + intros p c r ->. by eapply spaced_only_spaces.
    + intros p c d r ->. by eapply spaced_not_adjacent.
  - intros (Hhead & Hlast & Honly & Hadj). split.
    + by apply spaced_intro.
    + rewrite (ends_in_space_intro s Hlast). by intros [].
Qed.

Lemma length_strip_tags b s :
  String.length (strip_tags b s) ≤ String.length s.
Proof.
  revert b. induction s as [|c s IH]; intros b; [done|].
  cbn [strip_tags String.length].
  destruct b; [etrans; [apply IH|lia]|].
  destruct (is_char "<" c && tag_closes s); [etrans; [apply IH|lia]|].
  cbn [String.length]. pose proof (IH false). lia.
Qed.

Lemma length_collapse_ws b s :
  String.length (collapse_ws b s) ≤ String.length s.
Proof.
  revert b. induction s as [|c s IH]; intros b; [done|].
  cbn [collapse_ws String.length].
  destruct (is_space c); [destruct b|]; cbn [String.length].
  - etrans; [apply IH|lia].
  - pose proof (IH true). lia.
  - pose proof (IH false). lia.
Qed.

Lemma length_lstrip s : String.length (lstrip s) ≤ String.length s.
Proof.
  induction s as [|c s IH]; [done|]. cbn [lstrip].
  destruct (is_space c); [|done]. cbn [String.length]. lia.
Qed.

Lemma length_rstrip s : String.length (rstrip s) ≤ String.length s.
Proof.
  induction s as [|c s IH]; [done|]. cbn [rstrip].
  destruct (is_space c && bool_decide (rstrip s = "")); cbn [String.length];
    lia.
Qed.

Lemma length_strip s : String.length (strip s) ≤ String.length s.
Proof.
  unfold strip. etrans; [apply length_rstrip|apply length_lstrip].
Qed.

Lemma length_drop_bracket_dots s :
  String.length (drop_bracket_dots s) ≤ String.length s.
Proof.
  unfold drop_bracket_dots. case_bool_decide; [|done].
  rewrite length_str_take_min. lia.
Qed.

Lemma length_clean_text_str s :
  String.length (clean_text_str s) ≤ String.length s.
Proof.
  unfold clean_text_str.
  etrans; [apply length_strip|]. etrans; [apply length_drop_bracket_dots|].
  etrans; [apply length_strip|]. etrans; [apply length_collapse_ws|].
  apply length_strip_tags.
Qed.

Lemma strip_tags_fixed s : ¬ Str.contains "<" s → strip_tags false s = s.
Proof.
  induction s as [|c s IH]; [done|]. cbn [strip_tags Str.contains].
  cbn [Str.startswith]. fold (is_char "<" c).
  rewrite andb_true_r, orb_True. intros Hno.
  destruct (is_char "<" c); [by destruct Hno; left|].
  cbn [andb]. rewrite IH; [done|]. intros Hs. apply Hno. by right.
Qed.

Lemma collapse_ws_fixed b s : spaced b s → collapse_ws b s = s.
Proof.
  revert b. induction s as [|c s IH]; intros b; [done|].
  cbn [spaced collapse_ws]. destruct (is_space c).
  - intros [[Hc%bool_decide_unpack Hb]%andb_True Hs]%andb_True.
    destruct b; [done|]. subst c. by rewrite IH.
  - intros Hs. by rewrite IH.
Qed.

Lemma lstrip_fixed s : spaced true s → lstrip s = s.
Proof.
  destruct s as [|c s]; [done|]. cbn [spaced lstrip].
  destruct (is_space c); [|done].
  by intros [[_ ?]%andb_True _]%andb_True.
Qed.

Lemma rstrip_fixed s : ends_in_space s = false → rstrip s = s.
Proof.
  induction s as [|c s IH]; [done|]. cbn [ends_in_space rstrip].
  case_bool_decide as Hs.
  - subst s. intros ->. done.
  - intros Hend. rewrite (IH Hend). rewrite bool_decide_false by done.
    by rewrite andb_false_r.
Qed.

Lemma strip_fixed s : normalisedb s → strip s = s.
Proof.
  unfold normalisedb. rewrite andb_True, negb_True.
  intros [Hs Hend]. unfold strip. rewrite (lstrip_fixed _ Hs).
  apply rstrip_fixed. by destruct (ends_in_space s).
Qed.

(** [clean_text] accepts every text, and returns text with normalised
    white space that is no longer than what it was given. *)
Theorem clean_text_normalised (s : string) :
  ∃ out, clean_text (PStr s) = Ok out ∧ normalised out ∧
         String.length out ≤ String.length s.
Proof.
  exists (clean_text_str s). split_and!; [done| |].
  - apply normalisedb_spec, normalisedb_clean_text_str.
  - apply length_clean_text_str.
Qed.

(** Text that is already clean comes back unchanged: normalised white
    space, no opening angle bracket, and no bracketed ellipsis at the
    end. *)
Theorem clean_text_fixed (s : string) :
  normalised s → ¬ Str.contains "<" s → (∀ p, s ≠ p +:+ "[...]") →
  clean_text (PStr s) = Ok s.
Proof.
  intros Hs%normalisedb_spec Hlt Hdots. cbn [clean_text]. f_equal.
  unfold clean_text_str. rewrite (strip_tags_fixed _ Hlt).
  assert (spaced false s) as Hsp.
  { apply andb_True in Hs as [Hs _]. destruct s as [|c s]; [done|].
    cbn [spaced] in *. destruct (is_space c); [|done].
    apply andb_True in Hs as [Hs _]. by apply andb_True in Hs as [_ Hs]. }
  rewrite (collapse_ws_fixed _ _ Hsp), (strip_fixed _ Hs).
  unfold drop_bracket_dots. rewrite bool_decide_false; [by apply strip_fixed|].
  intros [p Hp]%(ends_with_spec "[...]" s). by apply (Hdots p).
Qed.

Lemma clean_text_fixed_witness : clean_text (PStr clean_line) = Ok clean_line.
Proof.
  apply clean_text_fixed.
  - apply normalisedb_spec. by vm_compute.
  - by vm_compute.
  - intros p Hp.
    assert (Str.drop (String.length clean_line - String.length "[...]")
                     clean_line = "[...]") as Hdrop
      by (apply ends_with_spec; by exists p).
    by vm_compute in Hdrop.
Defined.

Example clean_text_messy_line :
  clean_text (PStr messy_line) = Ok "Danube delta tours".
Proof. by vm_compute. Qed.

Section cleaning.
Variable soup_text : string → option string.

(** [clean_html] accepts every text, whatever the parser makes of it: the
    result has normalised white space, and when the parser raises it is
    what [clean_text] returns. *)
Theorem clean_html_normalised (s : string) :
  ∃ out, clean_html soup_text (PStr s) = Ok out ∧ normalised out ∧
         (soup_text s = None → clean_text (PStr s) = Ok out).
Proof.
  unfold clean_html. cbn [soup_get_text].
  destruct (soup_text s) as [text|] eqn:Hsoup.
  - eexists. split_and!; [done| |done].
    apply normalisedb_spec. eapply normalisedb_strip, spaced_collapse_ws.
  - exists (clean_text_str s). split_and!; [done| |done].
    apply normalisedb_spec, normalisedb_clean_text_str.
Qed.

End cleaning.
